(** * AfterImage: the placement state machine of the rod puzzle

    A shallow embedding of the React component [App] (drag begin / move /
    end, scatter, reset) and of the [Piece] record of [types.ts].

    Modelling choices.
    - Grid coordinates and extents are [Z]; pixel quantities (pointer
      coordinates, container rectangle, grab offset, cell size) are exact
      rationals [Q], so [Math.round] and [Math.floor] are total functions
      into [Z].  The handlers are given in exact arithmetic; the pointer
      handlers are given a second time with the rounding of the IEEE
      doubles after every operation ([handleMoveFl], [startDragFl]).
    - React state is an explicit record [State]; every handler is a function
      [State -> State] applied atomically to the latest state, the way the
      functional updaters [setPieces(prev => ...)] see it.
    - [Math.random] is a stream of draws [nat -> Q]; the engine's
      [Array.prototype.sort] is a parameter of the development.
    - [generateRods] and [shufflePieces] live in [utils/puzzleEngine], which
      is not among the sources: the layout they return is an argument of
      [initPuzzle].
    - The slots [loading], [geminiHint] and [showReference] and the hint
      request never meet the pieces and are left out. *)

From Stdlib Require Import ZArith QArith Qround Qminmax List String Bool Lia
  Permutation.
Import ListNotations.

Local Open Scope Z_scope.

(** ** types.ts *)

Record Piece := mkPiece {
  id : string;
  originalX : Z;
  originalY : Z;
  currentX : Z;
  currentY : Z;
  width : Z;
  height : Z;
  imageUrl : option string;
  videoUrl : option string;
  isLocked : bool
}.

Inductive Difficulty := Easy | Medium | Hard.

(** ** JavaScript primitives used by the handlers *)

(** [Math.round]: nearest integer, ties towards plus infinity. *)
Definition Math_round (q : Q) : Z := Qfloor (q + (1 # 2))%Q.

Definition Math_floor (q : Q) : Z := Qfloor q.

(** *** IEEE doubles

    The numbers of the script are binary64 doubles; its [-], [*] and [/]
    return the exact result rounded to the nearest double, ties to the even
    mantissa.  [toDouble] is that rounding for numbers in the normal range,
    which pixel quantities are (no overflow, no subnormals). *)

Definition pow2 (e : Z) : Q :=
  if 0 <=? e then inject_Z (2 ^ e) else 1 # Z.to_pos (2 ^ (- e)).

(** For [0 < q], the exponent [e] with [2^e <= q < 2^(e+1)]. *)
Definition binade (q : Q) : Z :=
  let e := Z.log2 (Qnum q) - Z.log2 (Zpos (Qden q)) in
  if Qle_bool (pow2 e) q then e else e - 1.

Definition roundHalfEven (q : Q) : Z :=
  let f := Qfloor q in
  match Qcompare (q - inject_Z f) (1 # 2) with
  | Lt => f
  | Gt => f + 1
  | Eq => if Z.even f then f else f + 1
  end.

(** For [0 < q]: 53 significant bits. *)
Definition nearestDouble (q : Q) : Q :=
  let ulp := pow2 (binade q - 52) in
  Qred (inject_Z (roundHalfEven (q / ulp)) * ulp).

Definition toDouble (q : Q) : Q :=
  match Qnum q with
  | Z0 => 0%Q
  | Zpos _ => nearestDouble q
  | Zneg _ => (- nearestDouble (- q))%Q
  end.

(** [{ ...p, currentX: x, currentY: y }] *)
Definition withCurrent (p : Piece) (x y : Z) : Piece :=
  {| id := id p; originalX := originalX p; originalY := originalY p;
     currentX := x; currentY := y;
     width := width p; height := height p;
     imageUrl := imageUrl p; videoUrl := videoUrl p;
     isLocked := isLocked p |}.

(** [{ ...p, isLocked: true }] *)
Definition withLocked (p : Piece) : Piece :=
  {| id := id p; originalX := originalX p; originalY := originalY p;
     currentX := currentX p; currentY := currentY p;
     width := width p; height := height p;
     imageUrl := imageUrl p; videoUrl := videoUrl p;
     isLocked := true |}.

(** ** Component state *)

Record Point := mkPoint { x : Q; y : Q }.

(** The part of [getBoundingClientRect()] the handlers read. *)
Record DOMRect := mkRect { left : Q; top : Q }.

Record State := mkState {
  pieces : list Piece;
  draggingId : option string;
  offset : Point;
  isSolved : bool
}.

(** [useState] initial values. *)
Definition initialState : State :=
  {| pieces := []; draggingId := None; offset := mkPoint 0%Q 0%Q;
     isSolved := false |}.

(** [p.id === draggingId], where [draggingId] may be [null]. *)
Definition isDragging (d : option string) (p : Piece) : bool :=
  match d with
  | Some s => String.eqb (id p) s
  | None => false
  end.

(** Truthiness of [draggingId]: [null] and the empty string are falsy. *)
Definition truthy (d : option string) : bool :=
  match d with
  | Some s => negb (String.eqb s "")
  | None => false
  end.

Definition unlockedB (p : Piece) : bool := negb (isLocked p).

Definition atHome (p : Piece) : bool :=
  (currentX p =? originalX p) && (currentY p =? originalY p).

(** [const gridSize = difficulty === Easy ? 6 : difficulty === Medium ? 10 : 16] *)
Definition gridSizeOf (d : Difficulty) : Z :=
  match d with
  | Easy => 6
  | Medium => 10
  | Hard => 16
  end.

(** [updateSize]: [Math.max(300, Math.min(600, width - 32))]; the initial
    value 600 of [containerSize] is the value for any parent of 632 px or
    more. *)
Definition updateSize (parentWidth : Q) : Q :=
  Qmax 300 (Qmin 600 (parentWidth - 32))%Q.

(** An insertion sort driven by the successive results of the comparator
    ([cmp j] is what the comparator returns at its [j]-th call): one
    admissible behaviour of [Array.prototype.sort] under a comparator that
    ignores its arguments. *)
Fixpoint insertBy (cmp : nat -> Q) (j : nat) (a : Piece) (l : list Piece)
  : list Piece * nat :=
  match l with
  | [] => ([a], j)
  | b :: t =>
      if Qle_bool (cmp j) 0%Q then (a :: b :: t, S j)
      else let (r, j') := insertBy cmp (S j) a t in (b :: r, j')
  end.

Fixpoint insertionSortFrom (cmp : nat -> Q) (j : nat) (l : list Piece)
  : list Piece * nat :=
  match l with
  | [] => ([], j)
  | a :: t =>
      let (s, j') := insertionSortFrom cmp j t in insertBy cmp j' a s
  end.

Definition insertionSort (cmp : nat -> Q) (l : list Piece) : list Piece :=
  fst (insertionSortFrom cmp 0 l).

(** [PointerDown clientX clientY i] is a primary-button press or a first
    touch on the [i]-th rendered [RodPiece], which is handed the [i]-th
    element of [pieces]. *)
Inductive Event :=
| PointerDown (clientX clientY : Q) (i : nat)
| PointerMove (clientX clientY : Q)
| PointerUp
| ScatterClick (rnd : nat -> Q)
| ResetClick (shuffled : list Piece).


(** The part of a piece fixed at creation. *)
Definition identity (p : Piece) : string * (Z * Z) * (Z * Z) :=
  (id p, (originalX p, originalY p), (width p, height p)).

(** All locked pieces come before all unlocked ones. *)
Definition lockedFirst (l : list Piece) : Prop :=
  exists a b, l = a ++ b /\
              forallb isLocked a = true /\ forallb unlockedB b = true.

(** A piece with its live cell blanked: what is left of it when one does
    not look at where it lies. *)
Definition forgetCell (p : Piece) : Piece := withCurrent p 0 0.

(** ** A worked example

    Three rods of a Medium puzzle (grid of 10 cells, container of 600 px at
    (20, 40), hence cells of 60 px): [rodA] is away from home, [rodB] sits
    on its home cell but is not locked, [rodC] is locked at home. *)

Definition rodA : Piece :=
  {| id := "rod-0"%string; originalX := 0; originalY := 0;
     currentX := 6; currentY := 3; width := 4; height := 1;
     imageUrl := Some "/images/default-skin.png"%string; videoUrl := None;
     isLocked := false |}.

Definition rodB : Piece :=
  {| id := "rod-1"%string; originalX := 4; originalY := 0;
     currentX := 4; currentY := 0; width := 3; height := 1;
     imageUrl := Some "/images/default-skin.png"%string; videoUrl := None;
     isLocked := false |}.

Definition rodC : Piece :=
  {| id := "rod-2"%string; originalX := 7; originalY := 0;
     currentX := 7; currentY := 0; width := 3; height := 1;
     imageUrl := Some "/images/default-skin.png"%string; videoUrl := None;
     isLocked := true |}.

Definition sampleRect : DOMRect := mkRect 20 40.

(** Nobody is dragging. *)
Definition sampleIdle : State :=
  {| pieces := [rodC; rodA; rodB]; draggingId := None;
     offset := mkPoint 0 0; isSolved := false |}.

(** [rodB] is being dragged, grabbed 10 px inside its corner. *)
Definition sampleDragging : State :=
  {| pieces := [rodC; rodA; rodB]; draggingId := Some "rod-1"%string;
     offset := mkPoint 10 10; isSolved := false |}.

(** [rodA] is being dragged, grabbed at its corner. *)
Definition sampleDraggingA : State :=
  {| pieces := [rodC; rodB; rodA]; draggingId := Some "rod-0"%string;
     offset := mkPoint 0 0; isSolved := false |}.

(** A layout as the engine returns it: every rod unlocked. *)
Definition sampleLayout : list Piece :=
  [ withCurrent rodA 2 5; withCurrent rodB 0 9;
    {| id := "rod-2"%string; originalX := 7; originalY := 0;
       currentX := 3; currentY := 3; width := 3; height := 1;
       imageUrl := Some "/images/default-skin.png"%string; videoUrl := None;
       isLocked := false |} ].

(** Draws 0, 1/4, 1/2, 3/4, 0, ... *)
Definition sampleDraws (k : nat) : Q := Z.of_nat (k mod 4) # 4.



Definition sampleEvents : list Event :=
  [ PointerDown 100 100 0;
    PointerDown 400 230 1;
    PointerMove 900 (-50);
    ScatterClick sampleDraws;
    PointerMove 130 45;
    PointerUp ].

(** Every rod locked on its home cell. *)
Definition sampleSolved : State :=
  {| pieces := [rodC; withLocked rodB; withLocked (withCurrent rodA 0 0)];
     draggingId := None; offset := mkPoint 10 10; isSolved := true |}.

(** [rodB], the last unlocked rod, is dragged and lies on its home cell. *)
Definition sampleLastDrag : State :=
  {| pieces := [rodC; withLocked (withCurrent rodA 0 0); rodB];
     draggingId := Some "rod-1"%string;
     offset := mkPoint 10 10; isSolved := false |}.

(** The dragging identifier names no rod of the sequence. *)
Definition sampleStale : State :=
  {| pieces := [rodC; rodA; rodB]; draggingId := Some "rod-9"%string;
     offset := mkPoint 10 10; isSolved := false |}.

(** The only rod of a narrow page (container of 348 px, cells of 34.8 px):
    away from its home cell, lying on cell 3. *)
Definition rodE : Piece :=
  {| id := "rod-0"%string; originalX := 1; originalY := 0;
     currentX := 3; currentY := 0; width := 2; height := 1;
     imageUrl := None; videoUrl := None; isLocked := false |}.

Definition sampleNarrow : State :=
  {| pieces := [rodE]; draggingId := None; offset := mkPoint 0 0;
     isSolved := false |}.

Definition sampleOrigin : DOMRect := mkRect 0 0.

Definition sampleEventsWithReset : list Event :=
  sampleEvents ++
  [ PointerDown 400 230 1; ResetClick sampleLayout; PointerMove 330 170;
    PointerUp ].

Section App.

(** Props and refs of one rendering of the component. *)
Variable difficulty : Difficulty.
Variable parentWidth : Q.
(** [containerRef.current?.getBoundingClientRect()] *)
Variable containerRect : option DOMRect.

(** [Array.prototype.sort] of the engine, as a function of the successive
    comparator results; the language only promises a rearrangement of the
    array's elements. *)
Variable arraySort : (nat -> Q) -> list Piece -> list Piece.
Hypothesis arraySort_perm :
  forall cmp l, Permutation (arraySort cmp l) l.

Definition gridSize : Z := gridSizeOf difficulty.
Definition containerSize : Q := updateSize parentWidth.
Definition cellSize : Q := (containerSize / inject_Z gridSize)%Q.

(** *** initPuzzle

    [shuffled] is [shufflePieces(generateRods(600, 600, gridSize, url,
    isVid), gridSize)]. *)
Definition initPuzzle (shuffled : list Piece) (st : State) : State :=
  {| pieces := shuffled;
     draggingId := draggingId st;
     offset := offset st;
     isSolved := false |}.

(** *** handleMove

    In exact arithmetic; [handleMoveFl] below is the handler with the
    rounding of the doubles. *)
Definition movePiece (relativeX relativeY : Q) (off : Point)
    (d : option string) (p : Piece) : Piece :=
  if isDragging d p then
    let nextX := Math_round ((relativeX - x off) / cellSize)%Q in
    let nextY := Math_round ((relativeY - y off) / cellSize)%Q in
    let nextX := Z.max 0 (Z.min (gridSize - width p) nextX) in
    let nextY := Z.max 0 (Z.min (gridSize - height p) nextY) in
    withCurrent p nextX nextY
  else p.

Definition handleMove (clientX clientY : Q) (st : State) : State :=
  match containerRect with
  | None => st
  | Some rect =>
      let relativeX := (clientX - left rect)%Q in
      let relativeY := (clientY - top rect)%Q in
      {| pieces := map (movePiece relativeX relativeY (offset st)
                          (draggingId st)) (pieces st);
         draggingId := draggingId st;
         offset := offset st;
         isSolved := isSolved st |}
  end.

(** *** handleEnd *)
Definition lockDragged (d : option string) (p : Piece) : Piece :=
  if isDragging d p then withLocked p else p.

Definition handleEnd (st : State) : State :=
  let prev := pieces st in
  match find (isDragging (draggingId st)) prev with
  | Some draggedPiece =>
      if atHome draggedPiece then
        let updated := map (lockDragged (draggingId st)) prev in
        let locked := filter isLocked updated in
        let unlocked := filter unlockedB updated in
        let final := locked ++ unlocked in
        {| pieces := final;
           draggingId := None;
           offset := offset st;
           isSolved := if forallb isLocked final then true
                       else isSolved st |}
      else
        {| pieces := prev; draggingId := None; offset := offset st;
           isSolved := isSolved st |}
  | None =>
      {| pieces := prev; draggingId := None; offset := offset st;
         isSolved := isSolved st |}
  end.

(** *** startDrag *)
Definition startDrag (clientX clientY : Q) (clickedPiece : Piece)
    (st : State) : State :=
  if isLocked clickedPiece then st
  else
    match containerRect with
    | None => st
    | Some rect =>
        let relativeX := (clientX - left rect)%Q in
        let relativeY := (clientY - top rect)%Q in
        let otherPieces :=
          filter (fun p => negb (String.eqb (id p) (id clickedPiece)))
                 (pieces st) in
        {| pieces := otherPieces ++ [clickedPiece];
           draggingId := Some (id clickedPiece);
           offset :=
             {| x := (relativeX - inject_Z (currentX clickedPiece) * cellSize)%Q;
                y := (relativeY - inject_Z (currentY clickedPiece) * cellSize)%Q |};
           isSolved := isSolved st |}
    end.

Definition onMouseDownPiece (button : Z) (clientX clientY : Q)
    (clickedPiece : Piece) (st : State) : State :=
  if negb (button =? 0) then st
  else startDrag clientX clientY clickedPiece st.

Definition onTouchStartPiece (touches : list (Q * Q))
    (clickedPiece : Piece) (st : State) : State :=
  match touches with
  | (clientX, clientY) :: _ => startDrag clientX clientY clickedPiece st
  | [] => st
  end.

(** *** The pointer handlers in double arithmetic

    [handleMove] and [startDrag] above compute with exact rationals.  Here
    every [-], [*] and [/] of the two handlers is followed by the rounding
    [fl] of its result, in the order the script evaluates them; [fl] is
    [toDouble] for the script and the identity for the handlers above.
    [containerSize] (an integer width less 32, clamped) and the integers
    [gridSize], [width], [height], [currentX], [currentY] are held
    exactly by a double. *)
Definition cellSizeFl (fl : Q -> Q) : Q :=
  fl (containerSize / inject_Z gridSize)%Q.

Definition movePieceFl (fl : Q -> Q) (relativeX relativeY : Q) (off : Point)
    (d : option string) (p : Piece) : Piece :=
  if isDragging d p then
    let nextX := Math_round (fl (fl (relativeX - x off) / cellSizeFl fl))%Q in
    let nextY := Math_round (fl (fl (relativeY - y off) / cellSizeFl fl))%Q in
    let nextX := Z.max 0 (Z.min (gridSize - width p) nextX) in
    let nextY := Z.max 0 (Z.min (gridSize - height p) nextY) in
    withCurrent p nextX nextY
  else p.

Definition handleMoveFl (fl : Q -> Q) (clientX clientY : Q) (st : State)
  : State :=
  match containerRect with
  | None => st
  | Some rect =>
      let relativeX := fl (clientX - left rect)%Q in
      let relativeY := fl (clientY - top rect)%Q in
      {| pieces := map (movePieceFl fl relativeX relativeY (offset st)
                          (draggingId st)) (pieces st);
         draggingId := draggingId st;
         offset := offset st;
         isSolved := isSolved st |}
  end.

Definition startDragFl (fl : Q -> Q) (clientX clientY : Q)
    (clickedPiece : Piece) (st : State) : State :=
  if isLocked clickedPiece then st
  else
    match containerRect with
    | None => st
    | Some rect =>
        let relativeX := fl (clientX - left rect)%Q in
        let relativeY := fl (clientY - top rect)%Q in
        let otherPieces :=
          filter (fun p => negb (String.eqb (id p) (id clickedPiece)))
                 (pieces st) in
        {| pieces := otherPieces ++ [clickedPiece];
           draggingId := Some (id clickedPiece);
           offset :=
             {| x := fl (relativeX
                         - fl (inject_Z (currentX clickedPiece)
                               * cellSizeFl fl))%Q;
                y := fl (relativeY
                         - fl (inject_Z (currentY clickedPiece)
                               * cellSizeFl fl))%Q |};
           isSolved := isSolved st |}
    end.

(** *** scatterPieces

    [rnd k] is the result of the [k]-th call of [Math.random] made during
    the call. *)
Definition scatterOne (rnd : nat -> Q) (k : nat) (p : Piece) : Piece :=
  withCurrent p
    (Math_floor (rnd k * inject_Z (gridSize - width p + 1))%Q)
    (Math_floor (rnd (S k) * inject_Z (gridSize - height p + 1))%Q).

Fixpoint scatterMap (rnd : nat -> Q) (k : nat) (l : list Piece)
  : list Piece :=
  match l with
  | [] => []
  | p :: t => scatterOne rnd k p :: scatterMap rnd (S (S k)) t
  end.

Definition scatterPieces (rnd : nat -> Q) (st : State) : State :=
  let prev := pieces st in
  let locked := filter isLocked prev in
  let unlocked := filter unlockedB prev in
  let scattered := scatterMap rnd 0 unlocked in
  let drawn := (2 * List.length unlocked)%nat in
  let scatteredShuffled :=
    arraySort (fun j => (rnd (drawn + j)%nat - (1 # 2))%Q) scattered in
  {| pieces := locked ++ scatteredShuffled;
     draggingId := draggingId st;
     offset := offset st;
     isSolved := isSolved st |}.

(** *** Event dispatch

    The effect registers [handleMove] and [handleEnd] on [window] only
    while [draggingId] is truthy and the container is mounted. *)
Definition listening (st : State) : bool :=
  truthy (draggingId st) &&
  match containerRect with Some _ => true | None => false end.

Definition step (st : State) (e : Event) : State :=
  match e with
  | PointerDown clientX clientY i =>
      match nth_error (pieces st) i with
      | Some clickedPiece => startDrag clientX clientY clickedPiece st
      | None => st
      end
  | PointerMove clientX clientY =>
      if listening st then handleMove clientX clientY st else st
  | PointerUp =>
      if listening st then handleEnd st else st
  | ScatterClick rnd => scatterPieces rnd st
  | ResetClick shuffled => initPuzzle shuffled st
  end.

Definition run (st : State) (es : list Event) : State :=
  fold_left step es st.

(** *** Predicates of the specification *)

(** The footprint of a piece lies inside the grid. *)
Definition inBounds (p : Piece) : Prop :=
  (0 <= currentX p <= gridSize - width p) /\
  (0 <= currentY p <= gridSize - height p).

(** [Math.random] returns a number in the half-open unit interval. *)
Definition unitDraws (rnd : nat -> Q) : Prop :=
  forall k, (0 <= rnd k)%Q /\ (rnd k < 1)%Q.

(** Modelled from the spec: the layout returned by [shufflePieces] after
    [generateRods] (module [utils/puzzleEngine], not among the sources):
    at least one piece, identifiers unique, every piece unlocked and
    placed inside the grid. *)
Definition freshLayout (l : list Piece) : Prop :=
  l <> [] /\
  NoDup (map id l) /\
  Forall (fun p => isLocked p = false) l /\
  Forall inBounds l.

Definition isReset (e : Event) : bool :=
  match e with
  | ResetClick _ => true
  | _ => false
  end.

(** What the environment can deliver: random draws in the unit interval,
    resets that install a generated layout. *)
Definition admissible (e : Event) : Prop :=
  match e with
  | ScatterClick rnd => unitDraws rnd
  | ResetClick shuffled => freshLayout shuffled
  | _ => True
  end.

(** Identifiers are unique and the dragging identifier, if any, names
    unlocked pieces only. *)
Definition wellFormed (st : State) : Prop :=
  NoDup (map id (pieces st)) /\
  (forall q, In q (pieces st) ->
             isDragging (draggingId st) q = true -> isLocked q = false).

(** The solved flag agrees with "every piece is locked". *)
Definition solvedAgrees (st : State) : Prop :=
  isSolved st = forallb isLocked (pieces st).


(** *** What the page shows *)

Definition lockedCount (l : list Piece) : nat :=
  List.length (filter isLocked l).

(** [Math.round((pieces.filter(p => p.isLocked).length / pieces.length) * 100)],
    the percentage of the progress line.  With no piece at all the script
    divides zero by zero; the properties below are stated for a non-empty
    sequence. *)
Definition progress (l : list Piece) : Z :=
  Math_round
    (inject_Z (Z.of_nat (lockedCount l)) / inject_Z (Z.of_nat (List.length l))
     * 100)%Q.

(** Events served by the listeners on [window]. *)
Definition isWindowEvent (e : Event) : bool :=
  match e with
  | PointerMove _ _ | PointerUp => true
  | _ => false
  end.

(** * Properties *)

(** ** Arithmetic of the JavaScript primitives *)

Lemma Math_floor_draw (r : Q) (n : Z) :
(0 <= r)%Q -> (r < 1)%Q -> 1 <= n ->
0 <= Math_floor (r * inject_Z n)%Q <= n - 1.
Proof.
intros H0 H1 Hn. unfold Math_floor.
assert (Hn0 : (0 < inject_Z n)%Q).
{ change 0%Q with (inject_Z 0). rewrite <- Zlt_Qlt. lia. }
split.
- change 0 with (Qfloor 0%Q). apply Qfloor_resp_le.
  apply Qmult_le_0_compat; [assumption | apply Qlt_le_weak; assumption].
- assert (Hlt : (r * inject_Z n < inject_Z n)%Q).
  { setoid_replace (inject_Z n) with (1 * inject_Z n)%Q at 2 by ring.
    apply Qmult_lt_compat_r; assumption. }
  assert (Hf : (inject_Z (Qfloor (r * inject_Z n)) < inject_Z n)%Q).
  { eapply Qle_lt_trans; [apply Qfloor_le | exact Hlt]. }
  rewrite <- Zlt_Qlt in Hf. lia.
Qed.


Lemma clamp_range (hi v : Z) :
0 <= hi -> 0 <= Z.max 0 (Z.min hi v) <= hi.
Proof. lia. Qed.

Lemma gridSizeOf_pos (d : Difficulty) : 6 <= gridSizeOf d.
Proof. destruct d; simpl; lia. Qed.

(** ** Lists: stable partition and permutations *)

Section ListFacts.
Context {A : Type}.
Variable f : A -> bool.

Lemma filter_idem (l : list A) : filter f (filter f l) = filter f l.
Proof. apply forallb_filter_id, forallb_filter. Qed.

Lemma filter_neg_nil (l : list A) :
  filter f (filter (fun a => negb (f a)) l) = [].
Proof.
  induction l as [|a l IH]; simpl; [reflexivity|].
  destruct (f a) eqn:E; simpl; [exact IH | rewrite E; exact IH].
Qed.

Lemma filter_nil_neg (l : list A) :
  filter (fun a => negb (f a)) (filter f l) = [].
Proof.
  induction l as [|a l IH]; simpl; [reflexivity|].
  destruct (f a) eqn:E; simpl; [rewrite E; exact IH | exact IH].
Qed.

Lemma partition_perm (l : list A) :
  Permutation (filter f l ++ filter (fun a => negb (f a)) l) l.
Proof.
  induction l as [|a l IH]; simpl; [constructor|].
  destruct (f a); simpl.
  - constructor; exact IH.
  - symmetry. apply Permutation_cons_app. symmetry. exact IH.
Qed.

Lemma forallb_perm (l l' : list A) :
  Permutation l l' -> forallb f l = forallb f l'.
Proof.
  intro H.
  induction H as [|a l l' _ IH|a b l|l l' l'' _ IH1 _ IH2]; simpl;
    try congruence.
  destruct (f a), (f b); reflexivity.
Qed.

Lemma forallb_partition (l : list A) :
  forallb f (filter f l ++ filter (fun a => negb (f a)) l) = forallb f l.
Proof. apply forallb_perm, partition_perm. Qed.
End ListFacts.

Lemma insertBy_perm cmp a l j :
Permutation (fst (insertBy cmp j a l)) (a :: l).
Proof.
revert j. induction l as [|b t IH]; intro j; simpl; [constructor; constructor|].
destruct (Qle_bool (cmp j) 0%Q); simpl; [apply Permutation_refl|].
specialize (IH (S j)). destruct (insertBy cmp (S j) a t) as [r j']. simpl in *.
eapply perm_trans; [apply perm_skip, IH | apply perm_swap].
Qed.

Lemma insertionSortFrom_perm cmp l j :
Permutation (fst (insertionSortFrom cmp j l)) l.
Proof.
induction l as [|a t IH]; simpl; [constructor|].
destruct (insertionSortFrom cmp j t) as [s j']. simpl in IH.
eapply perm_trans; [apply insertBy_perm | constructor; exact IH].
Qed.

Lemma insertionSort_perm cmp l : Permutation (insertionSort cmp l) l.
Proof. apply insertionSortFrom_perm. Qed.

(** ** The handlers, one by one *)

Lemma run_app st es es' : run st (es ++ es') = run (run st es) es'.
Proof. apply fold_left_app. Qed.

Lemma run_snoc st es e : run st (es ++ [e]) = step (run st es) e.
Proof. rewrite run_app. reflexivity. Qed.

(** *** handleMove *)

Lemma movePiece_other rx ry off d p :
  isDragging d p = false -> movePiece rx ry off d p = p.
Proof. unfold movePiece. intros ->. reflexivity. Qed.

Lemma movePiece_identity rx ry off d p :
  identity (movePiece rx ry off d p) = identity p.
Proof. unfold movePiece. destruct (isDragging d p); reflexivity. Qed.

Lemma movePiece_isLocked rx ry off d p :
  isLocked (movePiece rx ry off d p) = isLocked p.
Proof. unfold movePiece. destruct (isDragging d p); reflexivity. Qed.

Lemma movePiece_inBounds rx ry off d p :
  inBounds p -> inBounds (movePiece rx ry off d p).
Proof.
  unfold movePiece, inBounds. intros [Hx Hy].
  destruct (isDragging d p); simpl; [|tauto].
  split; apply clamp_range; lia.
Qed.

(** *** handleEnd *)

Lemma lockDragged_identity d p : identity (lockDragged d p) = identity p.
Proof. unfold lockDragged. destruct (isDragging d p); reflexivity. Qed.

Lemma lockDragged_inBounds d p : inBounds p -> inBounds (lockDragged d p).
Proof. unfold lockDragged. destruct (isDragging d p); auto. Qed.

Lemma lockDragged_keeps d p :
  isLocked p = true -> lockDragged d p = p.
Proof.
  unfold lockDragged, withLocked. intros H.
  destruct (isDragging d p); [|reflexivity].
  destruct p; simpl in *; subst; reflexivity.
Qed.

Lemma lockDragged_other d p :
  isDragging d p = false -> lockDragged d p = p.
Proof. unfold lockDragged. intros ->. reflexivity. Qed.

(** The sequence [handleEnd] leaves behind, as a case split on its two
    branches. *)
Lemma handleEnd_pieces st :
  (exists dp,
      find (isDragging (draggingId st)) (pieces st) = Some dp /\
      atHome dp = true /\
      pieces (handleEnd st) =
        filter isLocked (map (lockDragged (draggingId st)) (pieces st)) ++
        filter unlockedB (map (lockDragged (draggingId st)) (pieces st)) /\
      isSolved (handleEnd st) =
        (if forallb isLocked (pieces (handleEnd st)) then true
         else isSolved st)) \/
  ((forall dp, find (isDragging (draggingId st)) (pieces st) = Some dp ->
               atHome dp = false) /\
   pieces (handleEnd st) = pieces st /\
   isSolved (handleEnd st) = isSolved st).
Proof.
  unfold handleEnd.
  destruct (find (isDragging (draggingId st)) (pieces st)) as [dp|] eqn:Hf.
  - destruct (atHome dp) eqn:Hh.
    + left. exists dp. simpl. auto.
    + right. simpl. repeat split. intros ? [= <-]. exact Hh.
  - right. simpl. repeat split. discriminate.
Qed.

Lemma handleEnd_perm st :
  pieces (handleEnd st) = pieces st \/
  Permutation (pieces (handleEnd st))
              (map (lockDragged (draggingId st)) (pieces st)).
Proof.
  destruct (handleEnd_pieces st) as [(dp & _ & _ & -> & _) | (_ & -> & _)].
  - right. apply (partition_perm isLocked).
  - left. reflexivity.
Qed.

(** *** scatterPieces *)

Lemma scatterOne_identity rnd k p : identity (scatterOne rnd k p) = identity p.
Proof. reflexivity. Qed.

Lemma scatterOne_inBounds rnd k p :
  unitDraws rnd -> width p <= gridSize -> height p <= gridSize ->
  inBounds (scatterOne rnd k p).
Proof.
  intros Hr Hw Hh. unfold inBounds, scatterOne, withCurrent.
  cbn [currentX currentY width height].
  destruct (Hr k) as [Ha Hb]. destruct (Hr (S k)) as [Hc Hd].
  pose proof (Math_floor_draw (rnd k) (gridSize - width p + 1) Ha Hb).
  pose proof (Math_floor_draw (rnd (S k)) (gridSize - height p + 1) Hc Hd).
  lia.
Qed.

Lemma scatterMap_In rnd l : forall k q,
  In q (scatterMap rnd k l) ->
  exists p j, In p l /\ q = scatterOne rnd j p.
Proof.
  induction l as [|a l IH]; intros k q; simpl; [tauto|].
  intros [<- | Hq].
  - exists a, k. auto.
  - destruct (IH _ _ Hq) as (p & j & Hp & ->). exists p, j. auto.
Qed.

Lemma scatterMap_map {B} (f : Piece -> B) rnd l :
  (forall k p, f (scatterOne rnd k p) = f p) ->
  forall k, map f (scatterMap rnd k l) = map f l.
Proof.
  intros Hf. induction l as [|a l IH]; intro k; simpl; [reflexivity|].
  rewrite Hf, IH. reflexivity.
Qed.

Lemma scatterMap_nth rnd l : forall k i p,
  nth_error l i = Some p ->
  nth_error (scatterMap rnd k l) i = Some (scatterOne rnd (k + 2 * i) p).
Proof.
  induction l as [|a l IH]; intros k i p; destruct i; simpl;
    try discriminate.
  - intros [= ->]. rewrite Nat.add_0_r. reflexivity.
  - intros H. rewrite (IH (S (S k)) i p H). do 2 f_equal. lia.
Qed.

Lemma scatter_pieces rnd st :
  exists u,
    pieces (scatterPieces rnd st) = filter isLocked (pieces st) ++ u /\
    Permutation u (scatterMap rnd 0 (filter unlockedB (pieces st))).
Proof. eexists. split; [reflexivity | apply arraySort_perm]. Qed.

(** *** startDrag *)

Lemma startDrag_cases clientX clientY c st :
  startDrag clientX clientY c st = st \/
  (isLocked c = false /\
   draggingId (startDrag clientX clientY c st) = Some (id c) /\
   isSolved (startDrag clientX clientY c st) = isSolved st /\
   pieces (startDrag clientX clientY c st) =
     filter (fun p => negb (String.eqb (id p) (id c))) (pieces st) ++ [c]).
Proof.
  unfold startDrag. destruct (isLocked c); [left; reflexivity|].
  destruct containerRect; [right | left]; auto.
Qed.

(** Both React wrappers reach [startDrag] with the pointer position; other
    mouse buttons and empty touch lists do nothing. *)
Lemma pointerDown_wrappers clientX clientY c st :
  onMouseDownPiece 0 clientX clientY c st = startDrag clientX clientY c st /\
  (forall button, button <> 0 ->
                  onMouseDownPiece button clientX clientY c st = st) /\
  (forall more, onTouchStartPiece ((clientX, clientY) :: more) c st
                = startDrag clientX clientY c st) /\
  onTouchStartPiece [] c st = st.
Proof.
  repeat split. intros button Hb. unfold onMouseDownPiece.
  apply Z.eqb_neq in Hb. rewrite Hb. reflexivity.
Qed.

Lemma id_injective l p q :
  NoDup (map id l) -> In p l -> In q l -> id p = id q -> p = q.
Proof.
  induction l as [|a l IH]; simpl; [tauto|].
  intros Hnd [-> | Hp] [-> | Hq] E; inversion Hnd as [|? ? Hn Hl]; subst.
  - reflexivity.
  - exfalso. apply Hn. rewrite E. apply in_map. exact Hq.
  - exfalso. apply Hn. rewrite <- E. apply in_map. exact Hp.
  - auto.
Qed.

Lemma moveToEnd_perm l c :
  NoDup (map id l) -> In c l ->
  Permutation (filter (fun p => negb (String.eqb (id p) (id c))) l ++ [c]) l.
Proof.
  induction l as [|a l IH]; simpl; [tauto|].
  intros Hnd Hc. inversion Hnd as [|? ? Hn Hl]; subst.
  destruct (String.eqb (id a) (id c)) eqn:E; simpl.
  - apply String.eqb_eq in E.
    assert (a = c) as ->.
    { destruct Hc as [Hc | Hc]; [exact Hc|].
      exfalso. apply Hn. rewrite E. apply in_map. exact Hc. }
    rewrite forallb_filter_id; [symmetry; apply Permutation_cons_append|].
    apply forallb_forall. intros q Hq.
    destruct (String.eqb (id q) (id c)) eqn:E'; [|reflexivity].
    apply String.eqb_eq in E'. exfalso. apply Hn. rewrite <- E'.
    apply in_map. exact Hq.
  - constructor. apply IH; [exact Hl|].
    destruct Hc as [-> | Hc]; [|exact Hc].
    rewrite String.eqb_refl in E. discriminate.
Qed.

(** ** Invariants of the state machine *)

(** Case analysis on an event, leaving the handler it dispatches to. *)
Ltac event_cases e :=
  destruct e as [cx cy i | cx cy | | rnd | l]; cbn [step].

Lemma Forall_perm {A} (P : A -> Prop) l l' :
  Permutation l l' -> Forall P l' -> Forall P l.
Proof.
  intros HP H. rewrite Forall_forall in *. intros a Ha.
  apply H. eapply Permutation_in; eauto.
Qed.

Lemma forallb_map_same {A} (g : A -> bool) (f : A -> A) l :
  (forall a, g (f a) = g a) -> forallb g (map f l) = forallb g l.
Proof.
  intros H. induction l as [|a l IH]; simpl; [reflexivity|].
  rewrite H, IH. reflexivity.
Qed.

Lemma step_inBounds st e :
  Forall inBounds (pieces st) -> admissible e ->
  Forall inBounds (pieces (step st e)).
Proof.
  intros Hb He. event_cases e.
  - destruct (nth_error (pieces st) i) as [c|] eqn:Hi; [|exact Hb].
    destruct (startDrag_cases cx cy c st) as [-> | (_ & _ & _ & ->)];
      [exact Hb|].
    rewrite Forall_forall in *. intros q Hq. apply Hb.
    apply in_app_or in Hq. destruct Hq as [Hq | [<- | []]].
    + apply filter_In in Hq. tauto.
    + eapply nth_error_In; eauto.
  - destruct (listening st); [|exact Hb].
    unfold handleMove. destruct containerRect; [|exact Hb].
    cbn [pieces]. apply Forall_map. eapply Forall_impl; [|exact Hb].
    intros p. apply movePiece_inBounds.
  - destruct (listening st); [|exact Hb].
    destruct (handleEnd_perm st) as [-> | HP]; [exact Hb|].
    eapply Forall_perm; [exact HP|].
    apply Forall_map. eapply Forall_impl; [|exact Hb].
    intros p. apply lockDragged_inBounds.
  - destruct (scatter_pieces rnd st) as (u & -> & HP).
    apply Forall_app. split.
    + rewrite Forall_forall in *. intros q Hq. apply Hb.
      apply filter_In in Hq. tauto.
    + eapply Forall_perm; [exact HP|].
      rewrite Forall_forall in *. intros q Hq.
      apply scatterMap_In in Hq. destruct Hq as (p & j & Hp & ->).
      apply filter_In in Hp. destruct Hp as [Hp _].
      destruct (Hb p Hp) as [Hx Hy].
      apply scatterOne_inBounds; [exact He | lia | lia].
  - destruct He as (_ & _ & _ & H). exact H.
Qed.

Lemma run_inBounds es : forall st,
  Forall inBounds (pieces st) -> Forall admissible es ->
  Forall inBounds (pieces (run st es)).
Proof.
  induction es as [|e es IH]; intros st Hb Hes; simpl; [exact Hb|].
  inversion Hes; subst. apply IH; [apply step_inBounds|]; assumption.
Qed.

(** C1. Assuming every piece of the current layout has its footprint inside
    the grid ([0 <= currentX <= gridSize - width], and the same for Y), a
    pointer-move update keeps it so, a scatter call keeps it so, and so does
    any sequence of pointer, scatter and reset events. *)
Theorem footprint_inside_grid st :
  Forall inBounds (pieces st) ->
  (forall clientX clientY,
      Forall inBounds (pieces (handleMove clientX clientY st))) /\
  (forall rnd, unitDraws rnd ->
      Forall inBounds (pieces (scatterPieces rnd st))) /\
  (forall es, Forall admissible es ->
      Forall inBounds (pieces (run st es))).
Proof.
  intros Hb. split; [|split].
  - intros cx cy. unfold handleMove.
    destruct containerRect; [|exact Hb]. simpl.
    apply Forall_map. eapply Forall_impl; [|exact Hb].
    intros p. apply movePiece_inBounds.
  - intros rnd Hr. exact (step_inBounds st (ScatterClick rnd) Hb Hr).
  - intros es Hes. apply run_inBounds; assumption.
Qed.

(** *** The pieces as a collection *)

Lemma map_id_identity l :
  map id l = map (fun t => fst (fst t)) (map identity l).
Proof. rewrite map_map. reflexivity. Qed.

Lemma identity_perm_NoDup l l' :
  Permutation (map identity l') (map identity l) ->
  NoDup (map id l) -> NoDup (map id l').
Proof.
  intros HP Hnd. rewrite map_id_identity in *.
  eapply Permutation_NoDup; [|exact Hnd].
  apply Permutation_map. symmetry. exact HP.
Qed.

Lemma step_identity st e :
  NoDup (map id (pieces st)) -> isReset e = false ->
  Permutation (map identity (pieces (step st e))) (map identity (pieces st)).
Proof.
  intros Hnd He. event_cases e;
    try discriminate.
  - destruct (nth_error (pieces st) i) as [c|] eqn:Hi; [|reflexivity].
    destruct (startDrag_cases cx cy c st) as [-> | (_ & _ & _ & ->)];
      [reflexivity|].
    apply Permutation_map, moveToEnd_perm; [exact Hnd|].
    eapply nth_error_In; eauto.
  - destruct (listening st); [|reflexivity].
    unfold handleMove. destruct containerRect; [|reflexivity].
    cbn [pieces]. rewrite map_map.
    erewrite map_ext; [reflexivity|].
    intros p. apply movePiece_identity.
  - destruct (listening st); [|reflexivity].
    destruct (handleEnd_perm st) as [-> | HP]; [reflexivity|].
    eapply perm_trans; [apply Permutation_map; exact HP|].
    rewrite map_map. erewrite map_ext; [reflexivity|].
    intros p. apply lockDragged_identity.
  - destruct (scatter_pieces rnd st) as (u & -> & HP).
    rewrite map_app.
    eapply perm_trans;
      [apply Permutation_app_head, Permutation_map; exact HP|].
    rewrite (scatterMap_map identity), <- map_app;
      [|intros; apply scatterOne_identity].
    apply Permutation_map, (partition_perm isLocked).
Qed.

Lemma isDragging_identity d p q :
  identity p = identity q -> isDragging d p = isDragging d q.
Proof.
  unfold identity, isDragging. intros [= E _ _ _ _].
  destruct d; [rewrite E|]; reflexivity.
Qed.

Lemma handleEnd_draggingId st : draggingId (handleEnd st) = None.
Proof.
  unfold handleEnd.
  destruct (find (isDragging (draggingId st)) (pieces st)) as [dp|];
    [destruct (atHome dp)|]; reflexivity.
Qed.

Lemma step_wellFormed st e :
  wellFormed st -> isReset e = false -> wellFormed (step st e).
Proof.
  intros [Hnd Hd] He. split.
  { eapply identity_perm_NoDup; [apply step_identity|]; assumption. }
  event_cases e;
    try discriminate.
  - destruct (nth_error (pieces st) i) as [c|] eqn:Hi; [|exact Hd].
    destruct (startDrag_cases cx cy c st) as [-> | (Hc & -> & _ & ->)];
      [exact Hd|].
    intros q Hq Hdq. cbn [isDragging] in Hdq.
    apply in_app_or in Hq. destruct Hq as [Hq | [<- | []]]; [|exact Hc].
    apply filter_In in Hq. destruct Hq as [_ Hq].
    rewrite Hdq in Hq. discriminate.
  - destruct (listening st); [|exact Hd].
    unfold handleMove. destruct containerRect; [|exact Hd].
    cbn [pieces draggingId]. intros q Hq Hdq.
    apply in_map_iff in Hq. destruct Hq as (p & <- & Hp).
    rewrite movePiece_isLocked. apply Hd; [exact Hp|].
    rewrite <- Hdq. symmetry.
    apply isDragging_identity, movePiece_identity.
  - destruct (listening st); [|exact Hd].
    intros q _. rewrite handleEnd_draggingId. discriminate.
  - destruct (scatter_pieces rnd st) as (u & -> & HP).
    change (draggingId (scatterPieces rnd st)) with (draggingId st).
    intros q Hq Hdq. apply in_app_or in Hq. destruct Hq as [Hq | Hq].
    + apply filter_In in Hq. apply Hd; tauto.
    + eapply Permutation_in in Hq; [|exact HP].
      apply scatterMap_In in Hq. destruct Hq as (p & j & Hp & ->).
      apply filter_In in Hp. destruct Hp as [_ Hp].
      unfold unlockedB in Hp. apply negb_true_iff in Hp. exact Hp.
Qed.

Lemma run_wellFormed es : forall st,
  wellFormed st -> existsb isReset es = false -> wellFormed (run st es).
Proof.
  induction es as [|e es IH]; intros st Hw He; simpl in *; [exact Hw|].
  apply orb_false_iff in He. destruct He as [He Hes].
  apply IH; [apply step_wellFormed; assumption | exact Hes].
Qed.

Lemma initPuzzle_wellFormed l st : freshLayout l -> wellFormed (initPuzzle l st).
Proof.
  intros (_ & Hnd & Hu & _). split; [exact Hnd|].
  cbn [pieces initPuzzle]. intros q Hq _.
  rewrite Forall_forall in Hu. auto.
Qed.

(** *** Locked pieces stay where they are *)

Lemma step_keeps_locked st e p :
  wellFormed st -> isReset e = false ->
  In p (pieces st) -> isLocked p = true -> In p (pieces (step st e)).
Proof.
  intros [Hnd Hd] He Hp Hl.
  event_cases e; try discriminate.
  - destruct (nth_error (pieces st) i) as [c|] eqn:Hi; [|exact Hp].
    destruct (startDrag_cases cx cy c st) as [-> | (Hc & _ & _ & ->)];
      [exact Hp|].
    apply in_or_app. left. apply filter_In. split; [exact Hp|].
    destruct (String.eqb (id p) (id c)) eqn:E; [|reflexivity].
    apply String.eqb_eq in E.
    assert (p = c) as ->; [|congruence].
    eapply id_injective; eauto. eapply nth_error_In; eauto.
  - destruct (listening st); [|exact Hp].
    unfold handleMove. destruct containerRect; [|exact Hp].
    cbn [pieces]. apply in_map_iff. exists p. split; [|exact Hp].
    apply movePiece_other.
    destruct (isDragging (draggingId st) p) eqn:E; [|reflexivity].
    rewrite (Hd p Hp E) in Hl. discriminate.
  - destruct (listening st); [|exact Hp].
    destruct (handleEnd_perm st) as [-> | HP]; [exact Hp|].
    eapply Permutation_in; [symmetry; exact HP|].
    apply in_map_iff. exists p. split; [|exact Hp].
    apply lockDragged_keeps. exact Hl.
  - destruct (scatter_pieces rnd st) as (u & -> & _).
    apply in_or_app. left. apply filter_In. auto.
Qed.

Lemma run_keeps_locked es : forall st p,
  wellFormed st -> existsb isReset es = false ->
  In p (pieces st) -> isLocked p = true -> In p (pieces (run st es)).
Proof.
  induction es as [|e es IH]; intros st p Hw He Hp Hl; simpl in *;
    [exact Hp|].
  apply orb_false_iff in He. destruct He as [He Hes].
  apply IH; auto using step_wellFormed, step_keeps_locked.
Qed.

(** C5. Within one puzzle instance (any sequence of drag-start, pointer-move,
    drag-end and scatter events, no reset), a piece that is locked stays in
    the sequence as it is: the piece carrying its identifier is still locked
    and has the same [currentX] and [currentY]; a drag-start on it is
    rejected and a scatter call keeps it. *)
Theorem locking_is_monotonic st es p :
  wellFormed st -> existsb isReset es = false ->
  In p (pieces st) -> isLocked p = true ->
  In p (pieces (run st es)) /\
  (forall q, In q (pieces (run st es)) -> id q = id p ->
             isLocked q = true /\
             currentX q = currentX p /\ currentY q = currentY p) /\
  (forall clientX clientY,
      startDrag clientX clientY p (run st es) = run st es) /\
  (forall rnd, In p (pieces (scatterPieces rnd (run st es)))).
Proof.
  intros Hw He Hp Hl.
  pose proof (run_keeps_locked es st p Hw He Hp Hl) as Hin.
  pose proof (run_wellFormed es st Hw He) as Hw'.
  split; [exact Hin | split; [|split]].
  - intros q Hq E. destruct Hw' as [Hnd _].
    rewrite (id_injective _ q p Hnd Hq Hin E). auto.
  - intros cx cy. unfold startDrag. rewrite Hl. reflexivity.
  - intros rnd.
    exact (step_keeps_locked _ (ScatterClick rnd) p Hw' eq_refl Hin Hl).
Qed.

Lemma run_identity es : forall st,
  NoDup (map id (pieces st)) -> existsb isReset es = false ->
  Permutation (map identity (pieces (run st es))) (map identity (pieces st)).
Proof.
  induction es as [|e es IH]; intros st Hnd He; simpl in *; [reflexivity|].
  apply orb_false_iff in He. destruct He as [He Hes].
  pose proof (step_identity st e Hnd He) as HP.
  eapply perm_trans; [apply IH; [|exact Hes] | exact HP].
  eapply identity_perm_NoDup; eauto.
Qed.

(** C10. With unique identifiers, every sequence of drag-start, pointer-move,
    drag-end and scatter events leaves the collection of pieces the same up
    to order: the identities (id, home cell, width, height) after the events
    are a permutation of those before, identifiers stay unique, and the
    reordering done by a drag-start is a permutation of the very same
    pieces. *)
Theorem pieces_are_preserved st es :
  NoDup (map id (pieces st)) -> existsb isReset es = false ->
  Permutation (map identity (pieces (run st es)))
              (map identity (pieces st)) /\
  NoDup (map id (pieces (run st es))) /\
  List.length (pieces (run st es)) = List.length (pieces st) /\
  (forall clientX clientY i,
      Permutation (pieces (step (run st es) (PointerDown clientX clientY i)))
                  (pieces (run st es))).
Proof.
  intros Hnd He.
  pose proof (run_identity es st Hnd He) as HP.
  pose proof (identity_perm_NoDup _ _ HP Hnd) as Hnd'.
  split; [exact HP | split; [exact Hnd' | split]].
  - apply Permutation_length in HP. rewrite !length_map in HP. exact HP.
  - intros cx cy i. cbn [step].
    destruct (nth_error (pieces (run st es)) i) as [c|] eqn:Hi;
      [|reflexivity].
    destruct (startDrag_cases cx cy c (run st es))
      as [-> | (_ & _ & _ & ->)]; [reflexivity|].
    apply moveToEnd_perm; [exact Hnd'|]. eapply nth_error_In; eauto.
Qed.

(** *** The solved flag *)

(** Before the first generation the sequence is empty: every piece is
    locked, vacuously, and the flag is down.  The flag and the pieces agree
    from the first generated layout on. *)
Remark initialState_before_generation :
  forallb isLocked (pieces initialState) = true /\
  isSolved initialState = false.
Proof. split; reflexivity. Qed.

Lemma forallb_false_In {A} (g : A -> bool) l a :
  In a l -> g a = false -> forallb g l = false.
Proof.
  intros Ha Hg. destruct (forallb g l) eqn:E; [|reflexivity].
  rewrite forallb_forall in E. rewrite (E a Ha) in Hg. discriminate.
Qed.

Lemma lockDragged_all_locked d l :
  forallb isLocked l = true -> map (lockDragged d) l = l.
Proof.
  intros H. rewrite forallb_forall in H.
  rewrite <- (map_id l) at 2. apply map_ext_in.
  intros p Hp. apply lockDragged_keeps. auto.
Qed.

Lemma scatterMap_isLocked rnd l : forall k,
  forallb isLocked (scatterMap rnd k l) = forallb isLocked l.
Proof.
  induction l as [|a l IH]; intro k; cbn [scatterMap forallb];
    [reflexivity|].
  rewrite (IH (S (S k))). reflexivity.
Qed.

Lemma initPuzzle_solvedAgrees l st :
  freshLayout l -> solvedAgrees (initPuzzle l st).
Proof.
  intros (Hne & _ & Hu & _). unfold solvedAgrees.
  cbn [initPuzzle pieces isSolved].
  destruct l as [|a l]; [congruence|]. cbn [forallb].
  inversion Hu as [|? ? Ha _]; subst. rewrite Ha. reflexivity.
Qed.

Lemma step_solvedAgrees st e :
  solvedAgrees st -> admissible e -> solvedAgrees (step st e).
Proof.
  unfold solvedAgrees. intros Hs He.
  event_cases e.
  - destruct (nth_error (pieces st) i) as [c|] eqn:Hi; [|exact Hs].
    destruct (startDrag_cases cx cy c st) as [-> | (Hc & _ & -> & ->)];
      [exact Hs|].
    rewrite forallb_app. cbn [forallb]. rewrite Hc, andb_false_r.
    rewrite Hs. apply forallb_false_In with c; [|exact Hc].
    eapply nth_error_In; eauto.
  - destruct (listening st); [|exact Hs].
    unfold handleMove. destruct containerRect; [|exact Hs].
    cbn [pieces isSolved]. rewrite forallb_map_same; [exact Hs|].
    intros p. apply movePiece_isLocked.
  - destruct (listening st); [|exact Hs].
    destruct (handleEnd_pieces st)
      as [(dp & _ & _ & Hp & ->) | (_ & -> & ->)]; [|exact Hs].
    destruct (forallb isLocked (pieces (handleEnd st))) eqn:E;
      [reflexivity|].
    rewrite Hs. destruct (forallb isLocked (pieces st)) eqn:E';
      [|reflexivity].
    rewrite Hp, forallb_partition, lockDragged_all_locked in E by exact E'.
    congruence.
  - destruct (scatter_pieces rnd st) as (u & -> & HP).
    change (isSolved (scatterPieces rnd st)) with (isSolved st).
    rewrite Hs, forallb_app, (forallb_perm _ _ _ HP).
    rewrite <- (forallb_partition isLocked (pieces st)), forallb_app.
    f_equal. symmetry. apply scatterMap_isLocked.
  - apply initPuzzle_solvedAgrees. exact He.
Qed.

Lemma run_solvedAgrees es : forall st,
  solvedAgrees st -> Forall admissible es -> solvedAgrees (run st es).
Proof.
  induction es as [|e es IH]; intros st Hs Hes; simpl; [exact Hs|].
  inversion Hes; subst. apply IH; [apply step_solvedAgrees|]; assumption.
Qed.

(** C3. From a generated layout on, through any sequence of events, the
    solved flag is true exactly when every piece is locked; it is false right
    after generation; and a scatter call never changes it. *)
Theorem solved_iff_all_locked shuffled st0 es :
  freshLayout shuffled -> Forall admissible es ->
  (isSolved (run (initPuzzle shuffled st0) es) = true <->
   forall p, In p (pieces (run (initPuzzle shuffled st0) es)) ->
             isLocked p = true) /\
  isSolved (initPuzzle shuffled st0) = false /\
  (forall rnd,
      isSolved (scatterPieces rnd (run (initPuzzle shuffled st0) es)) =
      isSolved (run (initPuzzle shuffled st0) es)).
Proof.
  intros Hf Hes. split; [|split; [reflexivity | reflexivity]].
  assert (H0 : solvedAgrees (initPuzzle shuffled st0)).
  { apply initPuzzle_solvedAgrees. exact Hf. }
  pose proof (run_solvedAgrees es _ H0 Hes) as H.
  unfold solvedAgrees in H. rewrite H. apply forallb_forall.
Qed.

(** *** Drag release *)

Lemma filter_locked_partition l :
  filter isLocked (filter isLocked l ++ filter unlockedB l) =
  filter isLocked l.
Proof.
  rewrite filter_app, filter_idem. unfold unlockedB.
  rewrite filter_neg_nil. apply app_nil_r.
Qed.

Lemma filter_unlocked_partition l :
  filter unlockedB (filter isLocked l ++ filter unlockedB l) =
  filter unlockedB l.
Proof.
  rewrite filter_app, filter_idem. unfold unlockedB.
  rewrite (filter_nil_neg isLocked). reflexivity.
Qed.

Lemma lockedFirst_partition l u :
  forallb unlockedB u = true -> lockedFirst (filter isLocked l ++ u).
Proof.
  intros Hu. exists (filter isLocked l), u.
  split; [reflexivity | split; [apply forallb_filter | exact Hu]].
Qed.

Lemma isDragging_Some d p : isDragging (Some d) p = true <-> id p = d.
Proof. apply String.eqb_eq. Qed.

(** The release of a present, unlocked dragged piece, in terms of the test
    [atHome] that [handleEnd] applies. *)
Lemma handleEnd_of_dragged st d dp :
  draggingId st = Some d ->
  find (isDragging (Some d)) (pieces st) = Some dp ->
  (forall q, In q (pieces st) -> id q = d -> isLocked q = false) ->
  draggingId (handleEnd st) = None /\
  ((exists q, In q (pieces (handleEnd st)) /\ id q = d /\ isLocked q = true)
   <-> atHome dp = true) /\
  (atHome dp = true ->
     In (withLocked dp) (pieces (handleEnd st)) /\
     lockedFirst (pieces (handleEnd st)) /\
     filter isLocked (pieces (handleEnd st)) =
       filter isLocked (map (lockDragged (Some d)) (pieces st)) /\
     filter unlockedB (pieces (handleEnd st)) =
       filter unlockedB (map (lockDragged (Some d)) (pieces st)) /\
     (forall q, In q (pieces st) -> id q <> d ->
                In q (pieces (handleEnd st))) /\
     ((forall q, In q (pieces (handleEnd st)) -> isLocked q = true) ->
      isSolved (handleEnd st) = true)) /\
  (atHome dp = false ->
     pieces (handleEnd st) = pieces st /\
     isSolved (handleEnd st) = isSolved st).
Proof.
  intros Hd Hf Hu.
  destruct (find_some _ _ Hf) as [Hin Hdp].
  assert (Hhome : atHome dp = true ->
            pieces (handleEnd st) =
              filter isLocked (map (lockDragged (Some d)) (pieces st)) ++
              filter unlockedB (map (lockDragged (Some d)) (pieces st)) /\
            isSolved (handleEnd st) =
              (if forallb isLocked (pieces (handleEnd st)) then true
               else isSolved st)).
  { intros Hh. unfold handleEnd. rewrite Hd, Hf, Hh. split; reflexivity. }
  assert (Haway : atHome dp = false ->
            pieces (handleEnd st) = pieces st /\
            isSolved (handleEnd st) = isSolved st).
  { intros Hh. unfold handleEnd. rewrite Hd, Hf, Hh. split; reflexivity. }
  assert (Hlocked : atHome dp = true ->
            In (withLocked dp) (pieces (handleEnd st))).
  { intros Hh. destruct (Hhome Hh) as [-> _].
    apply in_or_app. left. apply filter_In. split; [|reflexivity].
    apply in_map_iff. exists dp. split; [|exact Hin].
    unfold lockDragged. rewrite Hdp. reflexivity. }
  split; [apply handleEnd_draggingId | split; [|split]].
  - split.
    + intros (q & Hq & Hid & Hl).
      destruct (atHome dp) eqn:Hh; [reflexivity|].
      destruct (Haway eq_refl) as [Hp _]. rewrite Hp in Hq.
      rewrite (Hu q Hq Hid) in Hl. discriminate.
    + intros Hh. exists (withLocked dp).
      split; [auto | split; [|reflexivity]].
      apply isDragging_Some in Hdp. exact Hdp.
  - intros Hh. destruct (Hhome Hh) as [Hp Hs].
    split; [auto|]. rewrite Hp.
    split; [apply lockedFirst_partition, forallb_filter|].
    split; [apply filter_locked_partition|].
    split; [apply filter_unlocked_partition|].
    split.
    + intros q Hq Hne.
      eapply Permutation_in; [symmetry; apply (partition_perm isLocked)|].
      apply in_map_iff. exists q. split; [|exact Hq].
      apply lockDragged_other.
      destruct (isDragging (Some d) q) eqn:E; [|reflexivity].
      apply isDragging_Some in E. contradiction.
    + intros Hall. rewrite Hs, Hp.
      apply forallb_forall in Hall. rewrite Hall. reflexivity.
  - exact Haway.
Qed.

Lemma atHome_iff p :
  atHome p = true <->
  currentX p = originalX p /\ currentY p = originalY p.
Proof. unfold atHome. rewrite andb_true_iff, !Z.eqb_eq. reflexivity. Qed.

Lemma atHome_false_iff p :
  atHome p = false <->
  currentX p <> originalX p \/ currentY p <> originalY p.
Proof.
  unfold atHome. rewrite andb_false_iff, !Z.eqb_neq. reflexivity.
Qed.

(** C2. A drag release with the dragged piece present and unlocked: the
    piece is locked afterwards if and only if, at that moment, its
    [currentX] equals its [originalX] and its [currentY] equals its
    [originalY].  When it locks, the new sequence is the stable partition of
    the old one (locked pieces first, each group in its former order), the
    other pieces are untouched, and the solved flag is raised if every
    piece is then locked.  When either coordinate differs from home, the
    sequence and the solved flag are unchanged.  In both cases the drag is
    over. *)
Theorem release_locks_exactly_at_home st d dp :
  draggingId st = Some d ->
  find (isDragging (Some d)) (pieces st) = Some dp ->
  (forall q, In q (pieces st) -> id q = d -> isLocked q = false) ->
  draggingId (handleEnd st) = None /\
  ((exists q, In q (pieces (handleEnd st)) /\ id q = d /\ isLocked q = true)
   <-> currentX dp = originalX dp /\ currentY dp = originalY dp) /\
  (currentX dp = originalX dp /\ currentY dp = originalY dp ->
     In (withLocked dp) (pieces (handleEnd st)) /\
     lockedFirst (pieces (handleEnd st)) /\
     filter isLocked (pieces (handleEnd st)) =
       filter isLocked (map (lockDragged (Some d)) (pieces st)) /\
     filter unlockedB (pieces (handleEnd st)) =
       filter unlockedB (map (lockDragged (Some d)) (pieces st)) /\
     (forall q, In q (pieces st) -> id q <> d ->
                In q (pieces (handleEnd st))) /\
     ((forall q, In q (pieces (handleEnd st)) -> isLocked q = true) ->
      isSolved (handleEnd st) = true)) /\
  (currentX dp <> originalX dp \/ currentY dp <> originalY dp ->
     In dp (pieces (handleEnd st)) /\ isLocked dp = false /\
     (forall q, In q (pieces (handleEnd st)) -> id q = d ->
                isLocked q = false) /\
     pieces (handleEnd st) = pieces st /\
     isSolved (handleEnd st) = isSolved st).
Proof.
  intros Hd Hf Hu.
  destruct (handleEnd_of_dragged st d dp Hd Hf Hu)
    as (Hnone & Hiff & Hhome & Haway).
  split; [exact Hnone | split; [|split]].
  - rewrite Hiff. apply atHome_iff.
  - intros Hh. apply Hhome, atHome_iff, Hh.
  - intros Hh. apply atHome_false_iff in Hh.
    destruct (Haway Hh) as [Hp Hs].
    destruct (find_some _ _ Hf) as [Hin Hdp].
    apply isDragging_Some in Hdp.
    rewrite Hp. repeat split; auto.
Qed.

(** *** Pointer move *)

Lemma exact_handlers_are_instances clientX clientY c st :
  handleMoveFl (fun q => q) clientX clientY st = handleMove clientX clientY st
  /\
  startDragFl (fun q => q) clientX clientY c st
    = startDrag clientX clientY c st.
Proof. split; reflexivity. Qed.


(** *** Scatter *)

Lemma draw_for_cell (t n : Z) :
  0 <= t -> t < n ->
  (0 <= inject_Z t / inject_Z n)%Q /\ (inject_Z t / inject_Z n < 1)%Q /\
  Math_floor (inject_Z t / inject_Z n * inject_Z n)%Q = t.
Proof.
  intros Ht Hn.
  assert (Hn0 : (0 < inject_Z n)%Q).
  { change 0%Q with (inject_Z 0). rewrite <- Zlt_Qlt. lia. }
  split; [|split].
  - apply Qle_shift_div_l; [exact Hn0|]. rewrite Qmult_0_l.
    change 0%Q with (inject_Z 0). rewrite <- Zle_Qle. exact Ht.
  - apply Qlt_shift_div_r; [exact Hn0|]. rewrite Qmult_1_l.
    rewrite <- Zlt_Qlt. exact Hn.
  - unfold Math_floor. rewrite <- (Qfloor_Z t) at 2.
    apply Qfloor_comp. field. intros E. rewrite E in Hn0.
    exact (Qlt_irrefl 0 Hn0).
Qed.

Lemma scatterOne_forget rnd k p :
  scatterOne rnd k (forgetCell p) = scatterOne rnd k p.
Proof. reflexivity. Qed.

Lemma scatterMap_forget rnd l : forall l' k,
  map forgetCell l = map forgetCell l' ->
  scatterMap rnd k l = scatterMap rnd k l'.
Proof.
  induction l as [|a l IH]; intros [|a' l'] k H; cbn [map] in H;
    try discriminate; [reflexivity|].
  pose proof (f_equal (@hd_error Piece) H) as Ha.
  pose proof (f_equal (@tl Piece) H) as Hl.
  cbn [hd_error tl] in Ha, Hl.
  assert (Ha' : forgetCell a = forgetCell a') by congruence.
  clear Ha. rename Ha' into Ha.
  cbn [scatterMap]. f_equal.
  - rewrite <- (scatterOne_forget rnd k a), <- (scatterOne_forget rnd k a').
    f_equal. exact Ha.
  - apply IH. exact Hl.
Qed.

Lemma scatterPieces_forget rnd st st' :
  filter isLocked (pieces st') = filter isLocked (pieces st) ->
  map forgetCell (filter unlockedB (pieces st'))
    = map forgetCell (filter unlockedB (pieces st)) ->
  pieces (scatterPieces rnd st') = pieces (scatterPieces rnd st).
Proof.
  intros Hl Hu. unfold scatterPieces. cbn [pieces]. rewrite Hl.
  rewrite (scatterMap_forget rnd _ _ 0%nat Hu).
  apply (f_equal (@List.length Piece)) in Hu. rewrite !length_map in Hu.
  rewrite Hu. reflexivity.
Qed.

Lemma scatterPieces_reaches st i p tx ty :
  nth_error (filter unlockedB (pieces st)) i = Some p ->
  0 <= tx <= gridSize - width p ->
  0 <= ty <= gridSize - height p ->
  exists rnd,
    unitDraws rnd /\
    In (withCurrent p tx ty) (pieces (scatterPieces rnd st)).
Proof.
  intros Hi Hx Hy.
  destruct (draw_for_cell tx (gridSize - width p + 1))
    as (Hx0 & Hx1 & Hfx); [lia | lia |].
  destruct (draw_for_cell ty (gridSize - height p + 1))
    as (Hy0 & Hy1 & Hfy); [lia | lia |].
  set (rnd := fun j =>
                if Nat.eqb j (2 * i)
                then (inject_Z tx / inject_Z (gridSize - width p + 1))%Q
                else (inject_Z ty / inject_Z (gridSize - height p + 1))%Q).
  exists rnd. split.
  - intros j. unfold rnd. destruct (Nat.eqb j (2 * i)); split; assumption.
  - destruct (scatter_pieces rnd st) as (u & -> & HP).
    apply in_or_app. right.
    eapply Permutation_in; [symmetry; exact HP|].
    pose proof (scatterMap_nth rnd _ 0%nat i p Hi) as Hn.
    apply nth_error_In in Hn.
    replace (withCurrent p tx ty) with (scatterOne rnd (0 + 2 * i) p);
      [exact Hn|].
    unfold scatterOne, rnd. cbn [Nat.add]. rewrite Nat.eqb_refl.
    replace (Nat.eqb (S (2 * i)) (2 * i)) with false
      by (symmetry; apply Nat.eqb_neq; lia).
    rewrite Hfx, Hfy. reflexivity.
Qed.

(** What scatter leaves alone and where it puts the unlocked pieces. *)
Lemma scatterPieces_frame st rnd :
  unitDraws rnd -> Forall inBounds (pieces st) ->
  draggingId (scatterPieces rnd st) = draggingId st /\
  offset (scatterPieces rnd st) = offset st /\
  isSolved (scatterPieces rnd st) = isSolved st /\
  filter isLocked (pieces (scatterPieces rnd st)) =
    filter isLocked (pieces st) /\
  lockedFirst (pieces (scatterPieces rnd st)) /\
  Permutation
    (map (fun p => (identity p, isLocked p)) (pieces (scatterPieces rnd st)))
    (map (fun p => (identity p, isLocked p)) (pieces st)) /\
  (exists u,
      pieces (scatterPieces rnd st) = filter isLocked (pieces st) ++ u /\
      Permutation u (scatterMap rnd 0 (filter unlockedB (pieces st))) /\
      Forall (fun q => isLocked q = false /\ inBounds q) u) /\
  (forall i p,
      nth_error (filter unlockedB (pieces st)) i = Some p ->
      exists cx cy,
        In (withCurrent p cx cy) (pieces (scatterPieces rnd st)) /\
        0 <= cx <= gridSize - width p /\
        0 <= cy <= gridSize - height p).
Proof.
  intros Hr Hb.
  destruct (scatter_pieces rnd st) as (u & Hp & HP).
  assert (Hu : Forall (fun q => isLocked q = false /\ inBounds q) u).
  { eapply Forall_perm; [exact HP|].
    rewrite Forall_forall in *. intros q Hq.
    apply scatterMap_In in Hq. destruct Hq as (p & j & Hq & ->).
    apply filter_In in Hq. destruct Hq as [Hq Hun].
    unfold unlockedB in Hun. apply negb_true_iff in Hun.
    split; [exact Hun|].
    destruct (Hb p Hq) as [Hx Hy].
    apply scatterOne_inBounds; [exact Hr | lia | lia]. }
  assert (HuB : forallb unlockedB u = true).
  { apply forallb_forall. intros q Hq. rewrite Forall_forall in Hu.
    unfold unlockedB. destruct (Hu q Hq) as [-> _]. reflexivity. }
  split; [reflexivity | split; [reflexivity | split; [reflexivity|]]].
  split.
  { rewrite Hp, filter_app, filter_idem.
    replace (filter isLocked u) with (@nil Piece); [apply app_nil_r|].
    symmetry. clear - HuB. induction u as [|a u IH]; [reflexivity|].
    cbn [forallb] in HuB. apply andb_true_iff in HuB.
    destruct HuB as [Ha Hu]. unfold unlockedB in Ha.
    apply negb_true_iff in Ha. cbn [filter]. rewrite Ha. auto. }
  split; [rewrite Hp; apply lockedFirst_partition; exact HuB|].
  split.
  { rewrite Hp, map_app.
    eapply perm_trans;
      [apply Permutation_app_head, Permutation_map; exact HP|].
    rewrite (scatterMap_map (fun p => (identity p, isLocked p)));
      [|reflexivity].
    rewrite <- map_app. apply Permutation_map, (partition_perm isLocked). }
  split; [exists u; auto|].
  intros i p Hi.
  pose proof (scatterMap_nth rnd _ 0 i p Hi) as Hn.
  apply nth_error_In in Hn. apply nth_error_In in Hi.
  apply filter_In in Hi. destruct Hi as [Hi _].
  rewrite Forall_forall in Hb. destruct (Hb p Hi) as [Hx Hy].
  destruct (scatterOne_inBounds rnd (0 + 2 * i) p Hr) as [Hcx Hcy];
    [lia | lia |].
  eexists. eexists. split; [|split; [exact Hcx | exact Hcy]].
  rewrite Hp. apply in_or_app. right.
  eapply Permutation_in; [symmetry; exact HP | exact Hn].
Qed.

(** C6. A scatter call leaves the dragging identifier, the grab offset and
    the solved flag alone; the locked pieces come first in the new sequence,
    the very same pieces in the same order; no piece changes identity or
    lock state; the unlocked pieces follow in some order, each one at a
    cell inside the grid.  Their cells are sampled anew: the outcome does
    not depend on where the unlocked pieces lay before the call (two states
    that differ only in the cells of unlocked pieces scatter to the same
    sequence), and every cell that keeps an unlocked piece inside the grid
    is the outcome of some draws. *)
Theorem scatter_touches_unlocked_only st rnd :
  unitDraws rnd -> Forall inBounds (pieces st) ->
  draggingId (scatterPieces rnd st) = draggingId st /\
  offset (scatterPieces rnd st) = offset st /\
  isSolved (scatterPieces rnd st) = isSolved st /\
  filter isLocked (pieces (scatterPieces rnd st)) =
    filter isLocked (pieces st) /\
  lockedFirst (pieces (scatterPieces rnd st)) /\
  Permutation
    (map (fun p => (identity p, isLocked p)) (pieces (scatterPieces rnd st)))
    (map (fun p => (identity p, isLocked p)) (pieces st)) /\
  (exists u,
      pieces (scatterPieces rnd st) = filter isLocked (pieces st) ++ u /\
      Permutation u (scatterMap rnd 0 (filter unlockedB (pieces st))) /\
      Forall (fun q => isLocked q = false /\ inBounds q) u) /\
  (forall i p,
      nth_error (filter unlockedB (pieces st)) i = Some p ->
      exists cx cy,
        In (withCurrent p cx cy) (pieces (scatterPieces rnd st)) /\
        0 <= cx <= gridSize - width p /\
        0 <= cy <= gridSize - height p) /\
  (forall st',
      filter isLocked (pieces st') = filter isLocked (pieces st) ->
      map forgetCell (filter unlockedB (pieces st'))
        = map forgetCell (filter unlockedB (pieces st)) ->
      pieces (scatterPieces rnd st') = pieces (scatterPieces rnd st)) /\
  (forall i p tx ty,
      nth_error (filter unlockedB (pieces st)) i = Some p ->
      0 <= tx <= gridSize - width p ->
      0 <= ty <= gridSize - height p ->
      exists rnd',
        unitDraws rnd' /\
        In (withCurrent p tx ty) (pieces (scatterPieces rnd' st))).
Proof.
  intros Hr Hb.
  destruct (scatterPieces_frame st rnd Hr Hb)
    as (H1 & H2 & H3 & H4 & H5 & H6 & H7 & H8).
  repeat (split; [assumption|]).
  split.
  - intros st'. apply scatterPieces_forget.
  - intros i p tx ty. apply scatterPieces_reaches.
Qed.



(** *** Reset *)

(** C8 (amended). A reset installs the newly generated layout, whatever the
    old sequence was, and lowers the solved flag; it leaves the dragging
    identifier and the grab offset as they were, so the pointer listeners
    stay as they were; the drag is over only after the next drag-end. *)
Theorem reset_keeps_drag_state shuffled st :
  pieces (step st (ResetClick shuffled)) = shuffled /\
  isSolved (step st (ResetClick shuffled)) = false /\
  draggingId (step st (ResetClick shuffled)) = draggingId st /\
  offset (step st (ResetClick shuffled)) = offset st /\
  listening (step st (ResetClick shuffled)) = listening st /\
  draggingId (handleEnd (step st (ResetClick shuffled))) = None.
Proof.
  repeat split. apply handleEnd_draggingId.
Qed.

(** *** Guards of the state machine *)


Lemma filter_none {A} (f : A -> bool) l :
  (forall a, In a l -> f a = false) -> filter f l = [].
Proof.
  induction l as [|a l IH]; intros H; cbn [filter]; [reflexivity|].
  rewrite (H a (or_introl eq_refl)). apply IH.
  intros b Hb. apply H. right. exact Hb.
Qed.

Lemma dragged_at_most_one d l :
  NoDup (map id l) -> (List.length (filter (isDragging d) l) <= 1)%nat.
Proof.
  induction l as [|a l IH]; intros Hnd; cbn [filter List.length]; [lia|].
  inversion Hnd as [|? ? Hn Hl]; subst.
  destruct (isDragging d a) eqn:E; [|auto].
  rewrite filter_none; [cbn [List.length]; lia|].
  intros b Hb. destruct (isDragging d b) eqn:E'; [|reflexivity].
  exfalso. apply Hn. destruct d as [s|]; [|discriminate].
  apply isDragging_Some in E, E'. rewrite E, <- E'.
  apply in_map. exact Hb.
Qed.


(** * Further properties of the component *)

(** ** Container and cell size *)

Lemma gridSize_pos : (0 < inject_Z gridSize)%Q.
Proof.
  change 0%Q with (inject_Z 0). rewrite <- Zlt_Qlt.
  pose proof (gridSizeOf_pos difficulty). unfold gridSize. lia.
Qed.

Lemma containerSize_range :
  (300 <= containerSize)%Q /\ (containerSize <= 600)%Q.
Proof.
  unfold containerSize, updateSize. split.
  - apply Q.le_max_l.
  - apply Q.max_lub; [discriminate | apply Q.le_min_l].
Qed.

Lemma cellSize_pos : (0 < cellSize)%Q.
Proof.
  unfold cellSize. apply Qlt_shift_div_l; [apply gridSize_pos|].
  destruct containerSize_range as [H _].
  eapply Qlt_le_trans; [|exact H]. reflexivity.
Qed.

Lemma cellSize_nonzero : ~ (cellSize == 0)%Q.
Proof.
  intros H. pose proof cellSize_pos as Hp. rewrite H in Hp.
  exact (Qlt_irrefl 0 Hp).
Qed.

(** X1. Whatever the width of the parent, the container is between 300 and
    600 px wide, it is the parent's width less 32 px when that lies in
    between, and a cell is between 18.75 and 100 px wide, never zero. *)
Theorem container_size_is_clamped :
  (300 <= containerSize)%Q /\ (containerSize <= 600)%Q /\
  ((332 <= parentWidth)%Q -> (parentWidth <= 632)%Q ->
   (containerSize == parentWidth - 32)%Q) /\
  ((75 # 4) <= cellSize)%Q /\ (cellSize <= 100)%Q.
Proof.
  destruct containerSize_range as [Hlo Hhi].
  split; [exact Hlo | split; [exact Hhi | split; [|split]]].
  - intros H1 H2. unfold containerSize, updateSize.
    rewrite Q.min_r, Q.max_r; [reflexivity | |].
    + apply (Qplus_le_l _ _ 32). ring_simplify. exact H1.
    + apply (Qplus_le_l _ _ 32). ring_simplify. exact H2.
  - unfold cellSize. apply Qle_shift_div_l; [apply gridSize_pos|].
    eapply Qle_trans; [|exact Hlo].
    assert (Hg : (inject_Z gridSize <= 16)%Q).
    { change 16%Q with (inject_Z 16). rewrite <- Zle_Qle.
      unfold gridSize. destruct difficulty; simpl; lia. }
    eapply Qle_trans;
      [apply Qmult_le_l; [reflexivity | exact Hg] | discriminate].
  - unfold cellSize. apply Qle_shift_div_r; [apply gridSize_pos|].
    eapply Qle_trans; [exact Hhi|].
    assert (Hg : (6 <= inject_Z gridSize)%Q).
    { change 6%Q with (inject_Z 6). rewrite <- Zle_Qle.
      apply gridSizeOf_pos. }
    eapply Qle_trans;
      [|apply Qmult_le_l; [reflexivity | exact Hg]]. discriminate.
Qed.

(** ** Pointer moves *)

Lemma Math_round_le q q' : (q <= q')%Q -> Math_round q <= Math_round q'.
Proof.
  intros H. unfold Math_round. apply Qfloor_resp_le.
  apply Qplus_le_compat; [exact H | apply Qle_refl].
Qed.

Lemma Math_round_Z n : Math_round (inject_Z n) = n.
Proof.
  unfold Math_round, Qfloor, inject_Z, Qplus. cbn [Qnum Qden].
  symmetry. apply (Z.div_unique _ _ _ 1); lia.
Qed.

Lemma Math_round_eq q q' : (q == q')%Q -> Math_round q = Math_round q'.
Proof. intros H. unfold Math_round. rewrite H. reflexivity. Qed.

Lemma cell_of_le a b off :
  (a <= b)%Q ->
  Math_round ((a - off) / cellSize)%Q <= Math_round ((b - off) / cellSize)%Q.
Proof.
  intros H. apply Math_round_le. unfold Qdiv.
  apply Qmult_le_compat_r.
  - apply Qplus_le_compat; [exact H | apply Qle_refl].
  - apply Qlt_le_weak, Qinv_lt_0_compat, cellSize_pos.
Qed.

Lemma isDragging_withCurrent d p cx cy :
  isDragging d (withCurrent p cx cy) = isDragging d p.
Proof. destruct d; reflexivity. Qed.

Lemma movePiece_absorbs rx ry rx' ry' off d p :
  movePiece rx' ry' off d (movePiece rx ry off d p) =
  movePiece rx' ry' off d p.
Proof.
  unfold movePiece. destruct (isDragging d p) eqn:E.
  - rewrite isDragging_withCurrent, E. reflexivity.
  - rewrite E. reflexivity.
Qed.

(** X3. Of two pointer-moves in a row only the second counts: the position
    of the dragged piece is a function of the pointer alone, not of where
    the piece was; a repeated move changes nothing. *)
Theorem last_move_wins clientX clientY clientX' clientY' st :
  handleMove clientX' clientY' (handleMove clientX clientY st)
    = handleMove clientX' clientY' st /\
  handleMove clientX clientY (handleMove clientX clientY st)
    = handleMove clientX clientY st.
Proof.
  assert (H : forall a b a' b',
             handleMove a' b' (handleMove a b st) = handleMove a' b' st).
  { intros a b a' b'. unfold handleMove.
    destruct containerRect as [rect|]; [|reflexivity].
    cbn [pieces draggingId offset isSolved]. f_equal.
    rewrite map_map. apply map_ext. intros p. apply movePiece_absorbs. }
  split; apply H.
Qed.

(** X12. The dragged piece follows the pointer monotonically: a pointer
    further right (further down) never leaves any piece further left
    (further up) than a pointer less far would. *)
Theorem move_is_monotone rect st i p clientX clientY clientX' clientY' :
  containerRect = Some rect ->
  nth_error (pieces st) i = Some p ->
  (clientX <= clientX')%Q -> (clientY <= clientY')%Q ->
  exists p1 p2,
    nth_error (pieces (handleMove clientX clientY st)) i = Some p1 /\
    nth_error (pieces (handleMove clientX' clientY' st)) i = Some p2 /\
    currentX p1 <= currentX p2 /\ currentY p1 <= currentY p2.
Proof.
  intros Hc Hi Hx Hy.
  exists (movePiece (clientX - left rect) (clientY - top rect)
            (offset st) (draggingId st) p).
  exists (movePiece (clientX' - left rect) (clientY' - top rect)
            (offset st) (draggingId st) p).
  split; [|split].
  - unfold handleMove. rewrite Hc. cbn [pieces].
    rewrite nth_error_map, Hi. reflexivity.
  - unfold handleMove. rewrite Hc. cbn [pieces].
    rewrite nth_error_map, Hi. reflexivity.
  - unfold movePiece. destruct (isDragging (draggingId st) p);
      cbn [withCurrent currentX currentY]; [|lia].
    assert (Hrx : (clientX - left rect <= clientX' - left rect)%Q).
    { apply Qplus_le_compat; [exact Hx | apply Qle_refl]. }
    assert (Hry : (clientY - top rect <= clientY' - top rect)%Q).
    { apply Qplus_le_compat; [exact Hy | apply Qle_refl]. }
    pose proof (cell_of_le _ _ (x (offset st)) Hrx).
    pose proof (cell_of_le _ _ (y (offset st)) Hry).
    lia.
Qed.

Lemma grabbed_cell (pointer client origin : Q) (cur k : Z) :
  (pointer == client + inject_Z k * cellSize)%Q ->
  Math_round
    ((pointer - origin - (client - origin - inject_Z cur * cellSize))
     / cellSize)%Q = cur + k.
Proof.
  intros H. rewrite <- (Math_round_Z (cur + k)).
  apply Math_round_eq. rewrite H, inject_Z_plus.
  field. exact cellSize_nonzero.
Qed.

Lemma withCurrent_same p : withCurrent p (currentX p) (currentY p) = p.
Proof. destruct p; reflexivity. Qed.

(** X2. The grab offset keeps the grab point under the pointer: after a
    drag-start at a pointer position, a move to a position [kx] cells to the
    right and [ky] cells down puts the piece [kx] and [ky] cells from where
    it was, clamped into the grid, and leaves the other pieces alone; a
    move to the very position of the drag-start leaves a piece that lies
    inside the grid where it is. *)
Theorem drag_follows_pointer rect st c clientX clientY pointerX pointerY kx ky :
  containerRect = Some rect -> isLocked c = false ->
  (pointerX == clientX + inject_Z kx * cellSize)%Q ->
  (pointerY == clientY + inject_Z ky * cellSize)%Q ->
  pieces (handleMove pointerX pointerY (startDrag clientX clientY c st)) =
    filter (fun p => negb (String.eqb (id p) (id c))) (pieces st) ++
    [withCurrent c
       (Z.max 0 (Z.min (gridSize - width c) (currentX c + kx)))
       (Z.max 0 (Z.min (gridSize - height c) (currentY c + ky)))] /\
  (inBounds c ->
   handleMove clientX clientY (startDrag clientX clientY c st)
     = startDrag clientX clientY c st).
Proof.
  intros Hc Hl Hx Hy.
  assert (Hothers : forall rx ry off,
    map (movePiece rx ry off (Some (id c)))
        (filter (fun p => negb (String.eqb (id p) (id c))) (pieces st))
    = filter (fun p => negb (String.eqb (id p) (id c))) (pieces st)).
  { intros rx ry off. rewrite <- map_id. apply map_ext_in.
    intros p Hp. apply filter_In in Hp. destruct Hp as [_ Hp].
    apply movePiece_other. cbn [isDragging].
    apply negb_true_iff in Hp. exact Hp. }
  assert (Hmoved : forall px py jx jy,
    (px == clientX + inject_Z jx * cellSize)%Q ->
    (py == clientY + inject_Z jy * cellSize)%Q ->
    pieces (handleMove px py (startDrag clientX clientY c st)) =
      filter (fun p => negb (String.eqb (id p) (id c))) (pieces st) ++
      [withCurrent c
         (Z.max 0 (Z.min (gridSize - width c) (currentX c + jx)))
         (Z.max 0 (Z.min (gridSize - height c) (currentY c + jy)))]).
  { intros px py jx jy Hpx Hpy.
    unfold handleMove, startDrag. rewrite Hl, Hc.
    cbn [pieces draggingId offset x y].
    rewrite map_app, Hothers. f_equal. cbn [map]. f_equal.
    unfold movePiece. cbn [isDragging x y]. rewrite String.eqb_refl.
    rewrite (grabbed_cell px clientX (left rect) (currentX c) jx Hpx).
    rewrite (grabbed_cell py clientY (top rect) (currentY c) jy Hpy).
    reflexivity. }
  split; [apply Hmoved; assumption|].
  intros [Hbx Hby].
  assert (Hp : pieces (handleMove clientX clientY
                         (startDrag clientX clientY c st))
               = pieces (startDrag clientX clientY c st)).
  { rewrite (Hmoved clientX clientY 0 0);
      [|change (inject_Z 0) with 0%Q; ring
       |change (inject_Z 0) with 0%Q; ring].
    unfold startDrag. rewrite Hl, Hc. cbn [pieces]. do 2 f_equal.
    rewrite !Z.add_0_r.
    replace (Z.max 0 (Z.min (gridSize - width c) (currentX c)))
      with (currentX c) by lia.
    replace (Z.max 0 (Z.min (gridSize - height c) (currentY c)))
      with (currentY c) by lia.
    apply withCurrent_same. }
  unfold handleMove in *. rewrite Hc in *. cbn [pieces] in Hp.
  rewrite Hp. unfold startDrag. rewrite Hl, Hc. reflexivity.
Qed.

(** ** Drag start and release *)

Lemma others_have_other_ids l1 l2 c :
  NoDup (map id (l1 ++ c :: l2)) ->
  forall q, In q (l1 ++ l2) -> String.eqb (id q) (id c) = false.
Proof.
  intros Hnd q Hq. rewrite map_app in Hnd. cbn [map] in Hnd.
  apply NoDup_remove_2 in Hnd. rewrite <- map_app in Hnd.
  apply String.eqb_neq. intros E. apply Hnd. rewrite <- E.
  apply in_map. exact Hq.
Qed.

Lemma filter_all {A} (f : A -> bool) l :
  (forall a, In a l -> f a = true) -> filter f l = l.
Proof. intros H. apply forallb_filter_id, forallb_forall. exact H. Qed.

(** X14. A drag-start on an unlocked piece moves it to the end of the
    sequence, where it is drawn above the others, and keeps the others in
    their order; on the piece that is already last it reorders nothing. *)
Theorem drag_start_brings_to_front rect st l1 l2 c clientX clientY :
  containerRect = Some rect ->
  NoDup (map id (pieces st)) ->
  pieces st = l1 ++ c :: l2 ->
  isLocked c = false ->
  pieces (startDrag clientX clientY c st) = l1 ++ l2 ++ [c] /\
  (l2 = [] -> pieces (startDrag clientX clientY c st) = pieces st).
Proof.
  intros Hc Hnd Hp Hl. rewrite Hp in Hnd.
  pose proof (others_have_other_ids l1 l2 c Hnd) as Ho.
  assert (H : pieces (startDrag clientX clientY c st) = l1 ++ l2 ++ [c]).
  { unfold startDrag. rewrite Hl, Hc. cbn [pieces]. rewrite Hp.
    rewrite filter_app. cbn [filter]. rewrite String.eqb_refl. cbn [negb].
    rewrite <- filter_app, filter_all, app_assoc; [reflexivity|].
    intros q Hq. rewrite (Ho q Hq). reflexivity. }
  split; [exact H|]. intros ->. rewrite H, Hp. reflexivity.
Qed.

Lemma find_last {A} (f : A -> bool) l a :
  (forall q, In q l -> f q = false) -> f a = true ->
  find f (l ++ [a]) = Some a.
Proof.
  intros Hl Ha. induction l as [|b l IH]; cbn [app find].
  - rewrite Ha. reflexivity.
  - rewrite (Hl b (or_introl eq_refl)). apply IH.
    intros q Hq. apply Hl. right. exact Hq.
Qed.

Lemma lockDragged_others d l :
  (forall q, In q l -> isDragging d q = false) ->
  map (lockDragged d) l = l.
Proof.
  intros H. rewrite <- (map_id l) at 2. apply map_ext_in.
  intros q Hq. apply lockDragged_other. auto.
Qed.

Lemma filter_unlocked_of_locked l :
  forallb isLocked l = true -> filter unlockedB l = [].
Proof.
  intros H. rewrite forallb_forall in H. apply filter_none.
  intros q Hq. unfold unlockedB. rewrite (H q Hq). reflexivity.
Qed.

Lemma filter_locked_of_unlocked l :
  forallb unlockedB l = true -> filter isLocked l = [].
Proof.
  intros H. rewrite forallb_forall in H. apply filter_none.
  intros q Hq. specialize (H q Hq). unfold unlockedB in H.
  apply negb_true_iff in H. exact H.
Qed.

(** X4. A press on an unlocked piece followed at once by a release, with no
    move in between, still tests the lock condition: a piece lying on its
    home cell is locked by the click and placed after the locked pieces,
    any other piece just comes to the end of the sequence; the drag is over
    either way. *)
Theorem click_without_move rect st i p clientX clientY :
  containerRect = Some rect ->
  nth_error (pieces st) i = Some p ->
  isLocked p = false ->
  id p <> ""%string ->
  draggingId (run st [PointerDown clientX clientY i; PointerUp]) = None /\
  (atHome p = true ->
     pieces (run st [PointerDown clientX clientY i; PointerUp]) =
       filter isLocked
         (filter (fun q => negb (String.eqb (id q) (id p))) (pieces st)) ++
       withLocked p ::
       filter unlockedB
         (filter (fun q => negb (String.eqb (id q) (id p))) (pieces st))) /\
  (atHome p = false ->
     pieces (run st [PointerDown clientX clientY i; PointerUp]) =
       filter (fun q => negb (String.eqb (id q) (id p))) (pieces st) ++ [p] /\
     isSolved (run st [PointerDown clientX clientY i; PointerUp])
       = isSolved st).
Proof.
  intros Hc Hi Hl Hid.
  set (others := filter (fun q => negb (String.eqb (id q) (id p)))
                        (pieces st)).
  assert (Ho : forall q, In q others ->
                         isDragging (Some (id p)) q = false).
  { intros q Hq. apply filter_In in Hq. destruct Hq as [_ Hq].
    apply negb_true_iff in Hq. exact Hq. }
  assert (Hp : isDragging (Some (id p)) p = true).
  { apply String.eqb_refl. }
  unfold run. cbn [fold_left step]. rewrite Hi.
  set (st1 := startDrag clientX clientY p st).
  assert (H1 : pieces st1 = others ++ [p] /\
               draggingId st1 = Some (id p) /\
               isSolved st1 = isSolved st).
  { unfold st1, startDrag. rewrite Hl, Hc. repeat split. }
  destruct H1 as (H1p & H1d & H1s).
  assert (Hlisten : listening st1 = true).
  { unfold listening. rewrite H1d, Hc. cbn [truthy].
    apply String.eqb_neq in Hid. rewrite Hid. reflexivity. }
  rewrite Hlisten.
  assert (Hfind : find (isDragging (draggingId st1)) (pieces st1) = Some p).
  { rewrite H1d, H1p. apply find_last; assumption. }
  split; [apply handleEnd_draggingId | split].
  - intros Hh. unfold handleEnd. rewrite Hfind, Hh. cbn [pieces].
    rewrite H1d, H1p, map_app, (lockDragged_others _ others Ho).
    cbn [map]. unfold lockDragged at 1 2. rewrite Hp.
    rewrite !filter_app. cbn [filter withLocked isLocked unlockedB negb].
    rewrite app_nil_r, <- app_assoc. reflexivity.
  - intros Hh. unfold handleEnd. rewrite Hfind, Hh.
    cbn [pieces isSolved]. auto.
Qed.

Lemma find_dragged l dp :
  NoDup (map id l) -> In dp l ->
  find (isDragging (Some (id dp))) l = Some dp.
Proof.
  intros Hnd Hin.
  destruct (find (isDragging (Some (id dp))) l) as [q|] eqn:E.
  - apply find_some in E. destruct E as [Hq E].
    apply isDragging_Some in E.
    rewrite (id_injective l q dp Hnd Hq Hin E). reflexivity.
  - pose proof (find_none _ _ E dp Hin) as H.
    cbn [isDragging] in H. rewrite String.eqb_refl in H. discriminate.
Qed.

(** X13. When a release locks the dragged piece in a sequence that has its
    locked pieces first, the new locked piece goes right behind the pieces
    locked before it, and every other piece keeps its place in its group. *)
Theorem newly_locked_goes_behind_locked st a b1 b2 dp :
  NoDup (map id (pieces st)) ->
  pieces st = a ++ b1 ++ dp :: b2 ->
  forallb isLocked a = true ->
  forallb unlockedB (b1 ++ dp :: b2) = true ->
  draggingId st = Some (id dp) ->
  atHome dp = true ->
  pieces (handleEnd st) = a ++ withLocked dp :: b1 ++ b2.
Proof.
  intros Hnd Hp Ha Hb Hd Hh.
  assert (Hin : In dp (pieces st)).
  { rewrite Hp. apply in_or_app. right. apply in_or_app. right.
    left. reflexivity. }
  pose proof (find_dragged _ dp Hnd Hin) as Hf.
  assert (Ho : forall q, In q (b1 ++ b2) ->
                         isDragging (Some (id dp)) q = false).
  { apply (others_have_other_ids b1 b2 dp).
    rewrite Hp, map_app in Hnd. apply NoDup_app_remove_l in Hnd.
    exact Hnd. }
  rewrite forallb_app in Hb. cbn [forallb] in Hb.
  apply andb_true_iff in Hb. destruct Hb as [Hb1 Hb2].
  apply andb_true_iff in Hb2. destruct Hb2 as [_ Hb2].
  unfold handleEnd. rewrite Hd, Hf, Hh. cbn [pieces].
  rewrite Hp, !map_app. cbn [map].
  rewrite (lockDragged_all_locked _ a Ha).
  rewrite (lockDragged_others _ b1), (lockDragged_others _ b2);
    [| intros q Hq; apply Ho, in_or_app; right; exact Hq
     | intros q Hq; apply Ho, in_or_app; left; exact Hq].
  unfold lockDragged. cbn [isDragging]. rewrite String.eqb_refl.
  rewrite !filter_app. cbn [filter withLocked isLocked unlockedB negb].
  rewrite (forallb_filter_id _ _ Ha), (filter_unlocked_of_locked a Ha).
  rewrite (filter_locked_of_unlocked b1 Hb1),
          (filter_locked_of_unlocked b2 Hb2).
  fold unlockedB.
  rewrite (forallb_filter_id _ _ Hb1), (forallb_filter_id _ _ Hb2).
  cbn [app]. rewrite <- app_assoc. reflexivity.
Qed.

(** X15. The pointer listeners exist only while the dragging identifier is
    a non-empty string and the container is mounted: with no drag, with the
    empty identifier or without container, any sequence of pointer-move and
    pointer-up events leaves the whole state as it is. *)
Theorem idle_pointer_events_are_ignored st es :
  draggingId st = None \/ draggingId st = Some ""%string \/
    containerRect = None ->
  forallb isWindowEvent es = true ->
  run st es = st.
Proof.
  intros Hidle Hes.
  assert (Hl : listening st = false).
  { unfold listening. destruct Hidle as [-> | [-> | ->]];
      [reflexivity | reflexivity | apply andb_false_r]. }
  induction es as [|e es IH]; [reflexivity|].
  cbn [forallb] in Hes. apply andb_true_iff in Hes.
  destruct Hes as [He Hes]. unfold run. cbn [fold_left].
  replace (step st e) with st; [apply IH; exact Hes|].
  destruct e; try discriminate; cbn [step]; rewrite Hl; reflexivity.
Qed.

(** ** Scatter *)

Lemma scatterPieces_all_locked rnd st :
  forallb isLocked (pieces st) = true -> scatterPieces rnd st = st.
Proof.
  intros H. unfold scatterPieces.
  rewrite (filter_unlocked_of_locked _ H), (forallb_filter_id _ _ H).
  cbn [scatterMap].
  rewrite (Permutation_nil (Permutation_sym (arraySort_perm _ []))).
  rewrite app_nil_r. destruct st; reflexivity.
Qed.

(** X11. The cells scatter can send a piece to are exactly the cells that
    keep it inside the grid, its home cell among them: a cell is in range
    if and only if some draws of the unit interval place the piece there. *)
Theorem scatter_reaches_every_cell p k tx ty :
  width p <= gridSize -> height p <= gridSize ->
  (0 <= tx <= gridSize - width p /\ 0 <= ty <= gridSize - height p) <->
  (exists rnd,
      unitDraws rnd /\ scatterOne rnd k p = withCurrent p tx ty).
Proof.
  intros Hw Hh. split.
  - intros [Hx Hy].
    destruct (draw_for_cell tx (gridSize - width p + 1))
      as (Hx0 & Hx1 & Hfx); [lia | lia |].
    destruct (draw_for_cell ty (gridSize - height p + 1))
      as (Hy0 & Hy1 & Hfy); [lia | lia |].
    exists (fun j =>
              if Nat.eqb j k
              then (inject_Z tx / inject_Z (gridSize - width p + 1))%Q
              else (inject_Z ty / inject_Z (gridSize - height p + 1))%Q).
    split.
    + intros j. destruct (Nat.eqb j k); split; assumption.
    + unfold scatterOne. rewrite Nat.eqb_refl.
      replace (Nat.eqb (S k) k) with false
        by (symmetry; apply Nat.eqb_neq; lia).
      rewrite Hfx, Hfy. reflexivity.
  - intros (rnd & Hr & E).
    pose proof (scatterOne_inBounds rnd k p Hr Hw Hh) as Hb.
    rewrite E in Hb. exact Hb.
Qed.

(** X10. On a puzzle whose pieces are all locked (the empty sequence
    included) scatter does nothing at all. *)
Theorem scatter_leaves_solved_puzzle st rnd :
  (forall p, In p (pieces st) -> isLocked p = true) ->
  scatterPieces rnd st = st.
Proof.
  intros H. apply scatterPieces_all_locked, forallb_forall. exact H.
Qed.

(** ** Along a run of events *)

Lemma run_wellFormed_admissible es : forall st,
  wellFormed st -> Forall admissible es -> wellFormed (run st es).
Proof.
  induction es as [|e es IH]; intros st Hw Hes; [exact Hw|].
  inversion Hes as [|? ? He Hes']; subst. unfold run. cbn [fold_left].
  apply IH; [|exact Hes'].
  destruct (isReset e) eqn:E; [|apply step_wellFormed; assumption].
  destruct e; try discriminate. cbn [step].
  apply initPuzzle_wellFormed. exact He.
Qed.

(** X6. Through every sequence of events, resets included, identifiers stay
    unique and the piece named by the dragging identifier is unlocked: a
    locked piece is never the dragged one. *)
Theorem dragged_piece_is_never_locked st es :
  wellFormed st -> Forall admissible es ->
  NoDup (map id (pieces (run st es))) /\
  (forall q, In q (pieces (run st es)) ->
             isDragging (draggingId (run st es)) q = true ->
             isLocked q = false).
Proof.
  intros Hw Hes. exact (run_wellFormed_admissible es st Hw Hes).
Qed.

Lemma step_lockedFirst st e :
  lockedFirst (pieces st) -> admissible e ->
  lockedFirst (pieces (step st e)).
Proof.
  intros (a & b & Hp & Ha & Hb) He. event_cases e.
  - destruct (nth_error (pieces st) i) as [c|] eqn:Hi;
      [|exists a, b; auto].
    destruct (startDrag_cases cx cy c st) as [-> | (Hc & _ & _ & ->)];
      [exists a, b; auto|].
    rewrite Hp, filter_app, <- app_assoc.
    eexists. eexists. split; [reflexivity|]. split.
    + apply forallb_forall. intros q Hq. apply filter_In in Hq.
      rewrite forallb_forall in Ha. apply Ha. tauto.
    + rewrite forallb_app. apply andb_true_iff. split.
      * apply forallb_forall. intros q Hq. apply filter_In in Hq.
        rewrite forallb_forall in Hb. apply Hb. tauto.
      * cbn [forallb]. unfold unlockedB. rewrite Hc. reflexivity.
  - destruct (listening st); [|exists a, b; auto].
    unfold handleMove. destruct containerRect; [|exists a, b; auto].
    cbn [pieces]. rewrite Hp, map_app.
    eexists. eexists. split; [reflexivity|]. split.
    + rewrite forallb_map_same; [exact Ha|].
      intros p. apply movePiece_isLocked.
    + rewrite forallb_map_same; [exact Hb|].
      intros p. unfold unlockedB. rewrite movePiece_isLocked. reflexivity.
  - destruct (listening st); [|exists a, b; auto].
    destruct (handleEnd_pieces st)
      as [(dp & _ & _ & -> & _) | (_ & -> & _)]; [|exists a, b; auto].
    apply lockedFirst_partition, forallb_filter.
  - destruct (scatter_pieces rnd st) as (u & -> & HP).
    apply lockedFirst_partition.
    rewrite (forallb_perm _ _ _ HP).
    apply forallb_forall. intros q Hq.
    apply scatterMap_In in Hq. destruct Hq as (p & j & Hq & ->).
    apply filter_In in Hq. destruct Hq as [_ Hq]. exact Hq.
  - destruct He as (_ & _ & Hu & _). cbn [initPuzzle pieces].
    exists [], l. split; [reflexivity | split; [reflexivity|]].
    apply forallb_forall. rewrite Forall_forall in Hu.
    intros q Hq. unfold unlockedB. rewrite (Hu q Hq). reflexivity.
Qed.

(** X5. The draw order keeps the locked pieces beneath: from a sequence
    with its locked pieces first (any generated layout), every sequence of
    events leads to a sequence with its locked pieces first. *)
Theorem locked_pieces_stay_beneath st es :
  lockedFirst (pieces st) -> Forall admissible es ->
  lockedFirst (pieces (run st es)).
Proof.
  revert st. induction es as [|e es IH]; intros st Hs Hes; [exact Hs|].
  inversion Hes; subst. unfold run. cbn [fold_left].
  apply IH; [apply step_lockedFirst|]; assumption.
Qed.

Lemma step_all_locked st e :
  wellFormed st -> forallb isLocked (pieces st) = true ->
  isReset e = false ->
  pieces (step st e) = pieces st /\ isSolved (step st e) = isSolved st.
Proof.
  intros [_ Hd] Hall He.
  assert (Hnone : forall q, In q (pieces st) ->
                            isDragging (draggingId st) q = false).
  { intros q Hq. destruct (isDragging (draggingId st) q) eqn:E;
      [|reflexivity].
    rewrite forallb_forall in Hall. specialize (Hall q Hq).
    rewrite (Hd q Hq E) in Hall. discriminate. }
  event_cases e; try discriminate.
  - destruct (nth_error (pieces st) i) as [c|] eqn:Hi; [|auto].
    unfold startDrag. rewrite forallb_forall in Hall.
    rewrite (Hall c (nth_error_In _ _ Hi)). auto.
  - destruct (listening st); [|auto].
    unfold handleMove. destruct containerRect; [|auto].
    cbn [pieces isSolved]. split; [|reflexivity].
    rewrite <- (map_id (pieces st)) at 2. apply map_ext_in.
    intros q Hq. apply movePiece_other. auto.
  - destruct (listening st); [|auto].
    destruct (handleEnd_pieces st)
      as [(dp & Hf & _) | (_ & -> & ->)]; [|auto].
    apply find_some in Hf. destruct Hf as [Hq E].
    rewrite (Hnone dp Hq) in E. discriminate.
  - rewrite (scatterPieces_all_locked rnd st Hall). auto.
Qed.

(** X7. Solved is final within an instance: once every piece is locked, no
    sequence of pointer and scatter events changes the sequence of pieces
    or the solved flag. *)
Theorem solved_is_final st es :
  wellFormed st ->
  (forall p, In p (pieces st) -> isLocked p = true) ->
  existsb isReset es = false ->
  pieces (run st es) = pieces st /\ isSolved (run st es) = isSolved st.
Proof.
  intros Hw Hall. apply forallb_forall in Hall.
  revert st Hw Hall. induction es as [|e es IH]; intros st Hw Hall Hes;
    [auto|].
  cbn [existsb] in Hes. apply orb_false_iff in Hes.
  destruct Hes as [He Hes]. unfold run. cbn [fold_left].
  destruct (step_all_locked st e Hw Hall He) as [Hp Hs].
  destruct (IH (step st e)) as [Hp' Hs'];
    [apply step_wellFormed; assumption | rewrite Hp; exact Hall
     | exact Hes |].
  unfold run in Hp', Hs'. rewrite Hp', Hs'. auto.
Qed.

(** ** Progress *)

Lemma lockedCount_perm l l' :
  Permutation l l' -> lockedCount l = lockedCount l'.
Proof.
  unfold lockedCount. intro H.
  induction H as [|a l l' _ IH|a b l|l l' l'' _ IH1 _ IH2];
    cbn [filter]; try congruence.
  - destruct (isLocked a); cbn [List.length]; congruence.
  - destruct (isLocked a), (isLocked b); reflexivity.
Qed.

Lemma lockedCount_app l l' :
  lockedCount (l ++ l') = (lockedCount l + lockedCount l')%nat.
Proof. unfold lockedCount. rewrite filter_app. apply length_app. Qed.

Lemma lockedCount_map f l :
  (forall p, isLocked p = true -> isLocked (f p) = true) ->
  (lockedCount l <= lockedCount (map f l))%nat.
Proof.
  intros H. unfold lockedCount.
  induction l as [|a l IH]; cbn [map filter]; [lia|].
  destruct (isLocked a) eqn:E.
  - rewrite (H a E). cbn [List.length]. lia.
  - destruct (isLocked (f a)); cbn [List.length]; lia.
Qed.

Lemma lockedCount_le_length l : (lockedCount l <= List.length l)%nat.
Proof. apply filter_length_le. Qed.

Lemma step_lockedCount st e :
  wellFormed st -> isReset e = false ->
  (lockedCount (pieces st) <= lockedCount (pieces (step st e)))%nat.
Proof.
  intros [Hnd _] He. event_cases e; try discriminate.
  - destruct (nth_error (pieces st) i) as [c|] eqn:Hi; [|lia].
    destruct (startDrag_cases cx cy c st) as [-> | (_ & _ & _ & ->)];
      [lia|].
    rewrite (lockedCount_perm _ _
               (moveToEnd_perm _ c Hnd (nth_error_In _ _ Hi))). lia.
  - destruct (listening st); [|lia].
    unfold handleMove. destruct containerRect; [|lia]. cbn [pieces].
    apply lockedCount_map. intros p Hp.
    rewrite movePiece_isLocked. exact Hp.
  - destruct (listening st); [|lia].
    destruct (handleEnd_perm st) as [-> | HP]; [lia|].
    rewrite (lockedCount_perm _ _ HP).
    apply lockedCount_map. intros p Hp.
    rewrite lockDragged_keeps; assumption.
  - destruct (scatter_pieces rnd st) as (u & -> & _).
    rewrite lockedCount_app. unfold lockedCount at 2.
    rewrite filter_idem. fold (lockedCount (pieces st)). lia.
Qed.

Lemma progress_as_quotient l :
  l <> [] ->
  progress l =
    (200 * Z.of_nat (lockedCount l) + Z.of_nat (List.length l))
    / (2 * Z.of_nat (List.length l)).
Proof.
  intros Hne.
  assert (Hn : 0 < Z.of_nat (List.length l)).
  { destruct l; [congruence | cbn [List.length]; lia]. }
  unfold progress, Math_round. rewrite Zdiv_Qdiv.
  apply Qfloor_comp.
  rewrite inject_Z_plus, !inject_Z_mult.
  change (inject_Z 200) with 200%Q. change (inject_Z 2) with 2%Q.
  field. intros E.
  assert (H0 : (0 < inject_Z (Z.of_nat (List.length l)))%Q).
  { change 0%Q with (inject_Z 0). rewrite <- Zlt_Qlt. exact Hn. }
  rewrite E in H0. exact (Qlt_irrefl 0 H0).
Qed.

(** X9. For a non-empty sequence the percentage shown lies between 0 and
    100; it is 0 with no piece locked and 100 with every piece locked; and
    with fewer than 200 pieces it is 100 only when every piece is locked. *)
Theorem progress_percentage l :
  l <> [] ->
  0 <= progress l <= 100 /\
  (lockedCount l = 0%nat -> progress l = 0) /\
  (lockedCount l = List.length l -> progress l = 100) /\
  ((List.length l < 200)%nat -> progress l = 100 ->
   forall p, In p l -> isLocked p = true).
Proof.
  intros Hne. rewrite (progress_as_quotient l Hne).
  pose proof (lockedCount_le_length l) as Hk.
  assert (Hn : 0 < Z.of_nat (List.length l)).
  { destruct l; [congruence | cbn [List.length]; lia]. }
  set (k := Z.of_nat (lockedCount l)) in *.
  set (n := Z.of_nat (List.length l)) in *.
  assert (Hkn : 0 <= k <= n) by (unfold k, n; lia).
  split; [|split; [|split]].
  - split.
    + apply Z.div_pos; lia.
    + assert ((200 * k + n) / (2 * n) < 101); [|lia].
      apply Z.div_lt_upper_bound; lia.
  - intros H0. assert (k = 0) as -> by (unfold k; lia).
    apply Z.div_small. lia.
  - intros Hall. assert (k = n) as -> by (unfold k, n; lia).
    symmetry. apply (Z.div_unique _ _ _ n); lia.
  - intros Hsmall H100.
    assert (Hge : 100 * (2 * n) <= 200 * k + n).
    { pose proof (Z.mul_div_le (200 * k + n) (2 * n)). lia. }
    assert (Hfull : lockedCount l = List.length l) by (unfold k, n in *; lia).
    apply forallb_forall, filter_length_forallb. exact Hfull.
Qed.

(** X8. Within an instance progress never goes back: along every sequence
    of pointer and scatter events the number of locked pieces does not
    decrease, the number of pieces stays the same, and the percentage
    shown does not decrease. *)
Theorem progress_never_decreases st es :
  wellFormed st -> existsb isReset es = false ->
  (lockedCount (pieces st) <= lockedCount (pieces (run st es)))%nat /\
  List.length (pieces (run st es)) = List.length (pieces st) /\
  (pieces st <> [] -> progress (pieces st) <= progress (pieces (run st es))).
Proof.
  intros Hw Hes.
  assert (Hcount : (lockedCount (pieces st)
                    <= lockedCount (pieces (run st es)))%nat).
  { revert st Hw Hes. induction es as [|e es IH]; intros st Hw Hes;
      [cbn; lia|].
    cbn [existsb] in Hes. apply orb_false_iff in Hes.
    destruct Hes as [He Hes]. unfold run. cbn [fold_left].
    pose proof (step_lockedCount st e Hw He).
    pose proof (IH (step st e) (step_wellFormed st e Hw He) Hes) as H'.
    unfold run in H'. lia. }
  assert (Hlen : List.length (pieces (run st es))
                 = List.length (pieces st)).
  { destruct Hw as [Hnd _].
    pose proof (run_identity es st Hnd Hes) as HP.
    apply Permutation_length in HP. rewrite !length_map in HP. exact HP. }
  split; [exact Hcount | split; [exact Hlen|]].
  intros Hne.
  assert (Hne' : pieces (run st es) <> []).
  { intros E. rewrite E in Hlen. destruct (pieces st);
      [congruence | discriminate]. }
  rewrite (progress_as_quotient _ Hne), (progress_as_quotient _ Hne'), Hlen.
  apply Z.div_le_mono; [|lia].
  destruct (pieces st); [congruence | cbn [List.length]; lia].
Qed.

(** ** Edges of the release *)

(** X16. A dragging identifier that names no piece of the sequence (as
    after a reset that issued other identifiers) is harmless: a
    pointer-move changes nothing and a release only clears the
    identifier. *)
Theorem stale_drag_is_harmless st d clientX clientY :
  draggingId st = Some d ->
  (forall q, In q (pieces st) -> id q <> d) ->
  handleMove clientX clientY st = st /\
  pieces (handleEnd st) = pieces st /\
  isSolved (handleEnd st) = isSolved st /\
  draggingId (handleEnd st) = None.
Proof.
  intros Hd Hno.
  assert (Hnone : forall q, In q (pieces st) ->
                            isDragging (draggingId st) q = false).
  { intros q Hq. rewrite Hd. apply String.eqb_neq. auto. }
  split; [|split; [|split]].
  - unfold handleMove. destruct containerRect; [|reflexivity].
    replace (map _ (pieces st)) with (pieces st);
      [destruct st; reflexivity|].
    rewrite <- (map_id (pieces st)) at 1. apply map_ext_in.
    intros q Hq. symmetry. apply movePiece_other. auto.
  - destruct (handleEnd_pieces st) as [(dp & Hf & _) | (_ & H & _)];
      [|exact H].
    apply find_some in Hf. destruct Hf as [Hq E].
    rewrite (Hnone dp Hq) in E. discriminate.
  - destruct (handleEnd_pieces st) as [(dp & Hf & _) | (_ & _ & H)];
      [|exact H].
    apply find_some in Hf. destruct Hf as [Hq E].
    rewrite (Hnone dp Hq) in E. discriminate.
  - apply handleEnd_draggingId.
Qed.

Lemma lockedCount_lockDragged d l :
  (lockedCount (map (lockDragged d) l)
   <= lockedCount l + List.length (filter (isDragging d) l))%nat.
Proof.
  unfold lockedCount.
  induction l as [|a l IH]; cbn [map filter List.length]; [lia|].
  unfold lockDragged at 1.
  destruct (isDragging d a); cbn [withLocked isLocked];
    destruct (isLocked a); cbn [List.length]; lia.
Qed.

(** X17. With unique identifiers a release locks at most one piece and
    unlocks none: either the sequence is as it was, or it is, up to order,
    the old sequence with the one dragged piece replaced by its locked copy
    and every other piece as it was; a piece locked before is still there
    unchanged, and the number of locked pieces grows by one at most. *)
Theorem release_locks_at_most_one st :
  NoDup (map id (pieces st)) ->
  (pieces (handleEnd st) = pieces st \/
   exists l1 dp l2,
     pieces st = l1 ++ dp :: l2 /\
     isDragging (draggingId st) dp = true /\
     Permutation (pieces (handleEnd st)) (l1 ++ withLocked dp :: l2)) /\
  (forall p, In p (pieces st) -> isLocked p = true ->
             In p (pieces (handleEnd st))) /\
  (lockedCount (pieces st) <= lockedCount (pieces (handleEnd st)))%nat /\
  (lockedCount (pieces (handleEnd st)) <= S (lockedCount (pieces st)))%nat.
Proof.
  intros Hnd. split; [|split].
  - destruct (handleEnd_pieces st)
      as [(dp & Hf & _ & Hp & _) | (_ & Hp & _)]; [right | left; exact Hp].
    apply find_some in Hf. destruct Hf as [Hin Hdp].
    destruct (in_split _ _ Hin) as (l1 & l2 & Hl).
    exists l1, dp, l2. split; [exact Hl | split; [exact Hdp|]].
    rewrite Hp. eapply perm_trans; [apply (partition_perm isLocked)|].
    rewrite Hl in Hnd |- *.
    pose proof (others_have_other_ids l1 l2 dp Hnd) as Ho.
    assert (Ho' : forall q, In q (l1 ++ l2) ->
                            isDragging (draggingId st) q = false).
    { intros q Hq. destruct (draggingId st) as [s|]; [|reflexivity].
      apply isDragging_Some in Hdp. subst s. exact (Ho q Hq). }
    rewrite map_app. cbn [map].
    rewrite (lockDragged_others _ l1), (lockDragged_others _ l2);
      [| intros q Hq; apply Ho', in_or_app; right; exact Hq
       | intros q Hq; apply Ho', in_or_app; left; exact Hq].
    unfold lockDragged. rewrite Hdp. reflexivity.
  - intros p Hp Hl.
    destruct (handleEnd_perm st) as [-> | HP]; [exact Hp|].
    eapply Permutation_in; [symmetry; exact HP|].
    apply in_map_iff. exists p. split; [|exact Hp].
    apply lockDragged_keeps. exact Hl.
  - destruct (handleEnd_perm st) as [-> | HP]; [lia|].
    rewrite (lockedCount_perm _ _ HP).
    pose proof (lockedCount_lockDragged (draggingId st) (pieces st)).
    pose proof (dragged_at_most_one (draggingId st) (pieces st) Hnd).
    pose proof (lockedCount_map (lockDragged (draggingId st)) (pieces st)
                  (fun p Hp => eq_ind_r (fun q => isLocked q = true) Hp
                                 (lockDragged_keeps (draggingId st) p Hp))).
    lia.
Qed.

(** X18. Only a release can solve the puzzle: if an event raises the solved
    flag, the event is a pointer-up and every piece is locked after it. *)
Theorem only_a_release_solves st e :
  isSolved st = false -> isSolved (step st e) = true ->
  e = PointerUp /\
  (forall p, In p (pieces (step st e)) -> isLocked p = true).
Proof.
  intros H0. event_cases e.
  - destruct (nth_error (pieces st) i) as [c|]; [|congruence].
    destruct (startDrag_cases cx cy c st) as [-> | (_ & _ & -> & _)];
      congruence.
  - destruct (listening st); [|congruence].
    unfold handleMove. destruct containerRect; cbn [isSolved]; congruence.
  - intros H1. split; [reflexivity|]. revert H1.
    destruct (listening st); [|congruence].
    destruct (handleEnd_pieces st)
      as [(dp & _ & _ & _ & ->) | (_ & _ & ->)]; [|congruence].
    intros H1. apply forallb_forall.
    destruct (forallb isLocked (pieces (handleEnd st)));
      [reflexivity | congruence].
  - change (isSolved (scatterPieces rnd st)) with (isSolved st).
    congruence.
  - discriminate.
Qed.

End App.

(** * The worked example, checked *)

Lemma sampleDraws_unit : unitDraws sampleDraws.
Proof.
  intro k. unfold sampleDraws, Qle, Qlt. cbn [Qnum Qden].
  pose proof (Nat.mod_upper_bound k 4). lia.
Qed.

Lemma sampleIdle_inBounds : Forall (inBounds Medium) (pieces sampleIdle).
Proof. repeat constructor; vm_compute; discriminate. Qed.

Lemma sampleIdle_ids : NoDup (map id (pieces sampleIdle)).
Proof.
  repeat constructor; cbn; intuition discriminate.
Qed.

Lemma sampleIdle_wellFormed : wellFormed sampleIdle.
Proof. split; [exact sampleIdle_ids | discriminate]. Qed.

Lemma sampleLayout_fresh : freshLayout Medium sampleLayout.
Proof.
  split; [discriminate | split; [|split]].
  - repeat constructor; cbn; intuition discriminate.
  - repeat constructor.
  - repeat constructor; vm_compute; discriminate.
Qed.

Lemma sampleEvents_admissible : Forall (admissible Medium) sampleEvents.
Proof.
  unfold sampleEvents.
  repeat apply Forall_cons; try exact I; try exact sampleDraws_unit.
  apply Forall_nil.
Qed.

Lemma footprint_inside_grid_witness :
  Forall (inBounds Medium) (pieces sampleIdle) /\
  Forall (admissible Medium) sampleEvents /\
  Forall (inBounds Medium)
    (pieces (run Medium 632 (Some sampleRect) insertionSort
               sampleIdle sampleEvents)).
Proof.
  split; [exact sampleIdle_inBounds | split; [exact sampleEvents_admissible|]].
  exact (proj2 (proj2 (footprint_inside_grid Medium 632 (Some sampleRect)
                         insertionSort insertionSort_perm sampleIdle
                         sampleIdle_inBounds))
               sampleEvents sampleEvents_admissible).
Defined.

Lemma release_locks_exactly_at_home_witness :
  (draggingId sampleDragging = Some "rod-1"%string /\
   find (isDragging (Some "rod-1"%string)) (pieces sampleDragging)
     = Some rodB /\
   currentX rodB = originalX rodB /\ currentY rodB = originalY rodB /\
   In (withLocked rodB) (pieces (handleEnd sampleDragging)) /\
   lockedFirst (pieces (handleEnd sampleDragging))) /\
  (draggingId sampleDraggingA = Some "rod-0"%string /\
   find (isDragging (Some "rod-0"%string)) (pieces sampleDraggingA)
     = Some rodA /\
   currentX rodA <> originalX rodA /\
   pieces (handleEnd sampleDraggingA) = pieces sampleDraggingA /\
   isLocked rodA = false).
Proof.
  assert (H : forall q, In q (pieces sampleDragging) ->
                        id q = "rod-1"%string -> isLocked q = false).
  { intros q [<- | [<- | [<- | []]]] E;
      first [reflexivity | discriminate E]. }
  assert (HA : forall q, In q (pieces sampleDraggingA) ->
                         id q = "rod-0"%string -> isLocked q = false).
  { intros q [<- | [<- | [<- | []]]] E;
      first [reflexivity | discriminate E]. }
  assert (Haway : currentX rodA <> originalX rodA) by discriminate.
  pose proof (release_locks_exactly_at_home sampleDragging "rod-1" rodB
                eq_refl eq_refl H) as (_ & _ & Hhome & _).
  pose proof (release_locks_exactly_at_home sampleDraggingA "rod-0" rodA
                eq_refl eq_refl HA) as (_ & _ & _ & Hstay).
  destruct (Hhome (conj eq_refl eq_refl)) as (Hin & Hfirst & _).
  destruct (Hstay (or_introl Haway)) as (_ & Hl & _ & Hp & _).
  repeat split; assumption.
Defined.

Lemma solved_iff_all_locked_witness :
  freshLayout Medium sampleLayout /\
  Forall (admissible Medium) sampleEvents /\
  (isSolved (run Medium 632 (Some sampleRect) insertionSort
               (initPuzzle sampleLayout sampleDragging) sampleEvents) = true
   <->
   forall p,
     In p (pieces (run Medium 632 (Some sampleRect) insertionSort
                     (initPuzzle sampleLayout sampleDragging) sampleEvents))
     -> isLocked p = true).
Proof.
  split; [exact sampleLayout_fresh | split; [exact sampleEvents_admissible|]].
  exact (proj1 (solved_iff_all_locked Medium 632 (Some sampleRect)
                  insertionSort insertionSort_perm sampleLayout
                  sampleDragging sampleEvents sampleLayout_fresh
                  sampleEvents_admissible)).
Defined.

(** In double arithmetic a press at 105 px on [rodE] and a move to 18 px
    leave the rod on cell 0: the quotient is 0.4999999999999998.  In exact
    arithmetic the quotient is one half and the cell 1. *)
Remark half_cell_in_doubles :
  map currentX
      (pieces (handleMoveFl Medium 380 (Some sampleOrigin) toDouble 18 10
                 (startDragFl Medium 380 (Some sampleOrigin) toDouble
                    105 10 rodE sampleNarrow))) = [0] /\
  map currentX
      (pieces (handleMove Medium 380 (Some sampleOrigin) 18 10
                 (startDrag Medium 380 (Some sampleOrigin)
                    105 10 rodE sampleNarrow))) = [1].
Proof. split; vm_compute; reflexivity. Qed.


Lemma locking_is_monotonic_witness :
  wellFormed sampleIdle /\
  existsb isReset sampleEvents = false /\
  In rodC (pieces sampleIdle) /\ isLocked rodC = true /\
  In rodC (pieces (run Medium 632 (Some sampleRect) insertionSort
                     sampleIdle sampleEvents)).
Proof.
  split; [exact sampleIdle_wellFormed|].
  split; [reflexivity|].
  split; [left; reflexivity|].
  split; [reflexivity|].
  exact (proj1 (locking_is_monotonic Medium 632 (Some sampleRect)
                  insertionSort insertionSort_perm sampleIdle sampleEvents
                  rodC sampleIdle_wellFormed eq_refl (or_introl eq_refl)
                  eq_refl)).
Defined.

Lemma scatter_touches_unlocked_only_witness :
  unitDraws sampleDraws /\
  Forall (inBounds Medium) (pieces sampleIdle) /\
  pieces (scatterPieces Medium insertionSort sampleDraws sampleIdle)
    = [rodC; withCurrent rodA 0 2; withCurrent rodB 4 7] /\
  filter isLocked
    (pieces (scatterPieces Medium insertionSort sampleDraws sampleIdle))
    = [rodC] /\
  pieces (scatterPieces Medium insertionSort sampleDraws sampleDragging)
    = pieces (scatterPieces Medium insertionSort sampleDraws sampleIdle) /\
  pieces (scatterPieces Medium insertionSort sampleDraws
            {| pieces := [rodC; withCurrent rodA 1 8; withCurrent rodB 7 9];
               draggingId := None; offset := mkPoint 0 0;
               isSolved := false |})
    = pieces (scatterPieces Medium insertionSort sampleDraws sampleIdle).
Proof.
  split; [exact sampleDraws_unit | split; [exact sampleIdle_inBounds|]].
  destruct (scatter_touches_unlocked_only Medium insertionSort
              insertionSort_perm sampleIdle sampleDraws
              sampleDraws_unit sampleIdle_inBounds)
    as (_ & _ & _ & Hl & _ & _ & _ & _ & Hsame & _).
  split; [reflexivity | split; [exact Hl | split]].
  - apply Hsame; reflexivity.
  - apply Hsame; reflexivity.
Defined.



Lemma pieces_are_preserved_witness :
  NoDup (map id (pieces sampleIdle)) /\
  existsb isReset sampleEvents = false /\
  Permutation
    (map identity (pieces (run Medium 632 (Some sampleRect) insertionSort
                             sampleIdle sampleEvents)))
    (map identity (pieces sampleIdle)).
Proof.
  split; [exact sampleIdle_ids | split; [reflexivity|]].
  exact (proj1 (pieces_are_preserved Medium 632 (Some sampleRect)
                  insertionSort insertionSort_perm sampleIdle sampleEvents
                  sampleIdle_ids eq_refl)).
Defined.

(** ** Where the code departs from the specification *)


(** C8, as stated, fails: a reset while [rodB] is dragged keeps the dragging
    identifier and the grab offset, the listeners stay registered, and the
    next pointer-move acts on the rod of the new layout that bears the old
    identifier. *)
Lemma reset_mid_drag_keeps_drag :
  draggingId (step Medium 632 (Some sampleRect) insertionSort
                sampleDragging (ResetClick sampleLayout))
    = Some "rod-1"%string /\
  offset (step Medium 632 (Some sampleRect) insertionSort
            sampleDragging (ResetClick sampleLayout))
    = offset sampleDragging /\
  listening (Some sampleRect)
    (step Medium 632 (Some sampleRect) insertionSort
       sampleDragging (ResetClick sampleLayout)) = true /\
  nth_error
    (pieces (run Medium 632 (Some sampleRect) insertionSort sampleDragging
               [ResetClick sampleLayout; PointerMove 330 170])) 1
    = Some (withCurrent rodB 5 2).
Proof. repeat split. Qed.


(** ** The further properties on the worked example *)

Lemma sampleIdle_lockedFirst : lockedFirst (pieces sampleIdle).
Proof. exists [rodC], [rodA; rodB]. repeat split. Qed.

Lemma sampleEventsWithReset_admissible :
  Forall (admissible Medium) sampleEventsWithReset.
Proof.
  apply Forall_app. split; [exact sampleEvents_admissible|].
  repeat apply Forall_cons; try exact I; try exact sampleLayout_fresh.
  apply Forall_nil.
Qed.

Lemma sampleSolved_wellFormed : wellFormed sampleSolved.
Proof.
  split; [|discriminate].
  repeat constructor; cbn; intuition discriminate.
Qed.

Lemma sampleSolved_all_locked :
  forall p, In p (pieces sampleSolved) -> isLocked p = true.
Proof. intros p [<- | [<- | [<- | []]]]; reflexivity. Qed.

Lemma drag_follows_pointer_witness :
  isLocked rodA = false /\
  (520 == 400 + inject_Z 2 * cellSize Medium 632)%Q /\
  (170 == 230 + inject_Z (-1) * cellSize Medium 632)%Q /\
  pieces (handleMove Medium 632 (Some sampleRect) 520 170
            (startDrag Medium 632 (Some sampleRect) 400 230 rodA sampleIdle))
    = [rodC; rodB; withCurrent rodA 6 2].
Proof.
  assert (Hx : (520 == 400 + inject_Z 2 * cellSize Medium 632)%Q)
    by (vm_compute; reflexivity).
  assert (Hy : (170 == 230 + inject_Z (-1) * cellSize Medium 632)%Q)
    by (vm_compute; reflexivity).
  split; [reflexivity | split; [exact Hx | split; [exact Hy|]]].
  exact (proj1 (drag_follows_pointer Medium 632 (Some sampleRect) sampleRect
                  sampleIdle rodA 400 230 520 170 2 (-1)
                  eq_refl eq_refl Hx Hy)).
Defined.

Lemma click_without_move_witness :
  nth_error (pieces sampleIdle) 2 = Some rodB /\
  isLocked rodB = false /\ id rodB <> ""%string /\ atHome rodB = true /\
  pieces (run Medium 632 (Some sampleRect) insertionSort sampleIdle
            [PointerDown 210 45 2; PointerUp])
    = [rodC; withLocked rodB; rodA].
Proof.
  assert (Hid : id rodB <> ""%string) by discriminate.
  split; [reflexivity | split; [reflexivity | split; [exact Hid|]]].
  split; [reflexivity|].
  exact (proj1 (proj2 (click_without_move Medium 632 (Some sampleRect)
                         insertionSort sampleRect sampleIdle 2 rodB 210 45
                         eq_refl eq_refl eq_refl Hid)) eq_refl).
Defined.

Lemma locked_pieces_stay_beneath_witness :
  lockedFirst (pieces sampleIdle) /\
  Forall (admissible Medium) sampleEventsWithReset /\
  lockedFirst
    (pieces (run Medium 632 (Some sampleRect) insertionSort sampleIdle
               sampleEventsWithReset)).
Proof.
  split; [exact sampleIdle_lockedFirst|].
  split; [exact sampleEventsWithReset_admissible|].
  exact (locked_pieces_stay_beneath Medium 632 (Some sampleRect)
           insertionSort insertionSort_perm sampleIdle
           sampleEventsWithReset sampleIdle_lockedFirst
           sampleEventsWithReset_admissible).
Defined.

Lemma dragged_piece_is_never_locked_witness :
  wellFormed sampleIdle /\
  Forall (admissible Medium) sampleEventsWithReset /\
  NoDup (map id (pieces (run Medium 632 (Some sampleRect) insertionSort
                           sampleIdle sampleEventsWithReset))).
Proof.
  split; [exact sampleIdle_wellFormed|].
  split; [exact sampleEventsWithReset_admissible|].
  exact (proj1 (dragged_piece_is_never_locked Medium 632 (Some sampleRect)
                  insertionSort insertionSort_perm sampleIdle
                  sampleEventsWithReset sampleIdle_wellFormed
                  sampleEventsWithReset_admissible)).
Defined.

Lemma solved_is_final_witness :
  wellFormed sampleSolved /\
  existsb isReset sampleEvents = false /\
  pieces (run Medium 632 (Some sampleRect) insertionSort sampleSolved
            sampleEvents) = pieces sampleSolved.
Proof.
  split; [exact sampleSolved_wellFormed | split; [reflexivity|]].
  exact (proj1 (solved_is_final Medium 632 (Some sampleRect) insertionSort
                  insertionSort_perm sampleSolved sampleEvents
                  sampleSolved_wellFormed sampleSolved_all_locked eq_refl)).
Defined.

Lemma progress_never_decreases_witness :
  wellFormed sampleLastDrag /\
  existsb isReset [PointerMove 270 50; PointerUp] = false /\
  (lockedCount (pieces sampleLastDrag)
   <= lockedCount (pieces (run Medium 632 (Some sampleRect) insertionSort
                             sampleLastDrag [PointerMove 270 50; PointerUp])))%nat.
Proof.
  assert (Hw : wellFormed sampleLastDrag).
  { split; [repeat constructor; cbn; intuition discriminate|].
    intros q [<- | [<- | [<- | []]]] E;
      first [reflexivity | discriminate E]. }
  split; [exact Hw | split; [reflexivity|]].
  exact (proj1 (progress_never_decreases Medium 632 (Some sampleRect)
                  insertionSort insertionSort_perm sampleLastDrag
                  [PointerMove 270 50; PointerUp] Hw eq_refl)).
Defined.

Lemma progress_percentage_witness :
  pieces sampleIdle <> [] /\ 0 <= progress (pieces sampleIdle) <= 100.
Proof.
  assert (H : pieces sampleIdle <> []) by discriminate.
  split; [exact H | exact (proj1 (progress_percentage _ H))].
Defined.

Lemma scatter_leaves_solved_puzzle_witness :
  (forall p, In p (pieces sampleSolved) -> isLocked p = true) /\
  scatterPieces Medium insertionSort sampleDraws sampleSolved = sampleSolved.
Proof.
  split; [exact sampleSolved_all_locked|].
  exact (scatter_leaves_solved_puzzle Medium insertionSort
           insertionSort_perm sampleSolved sampleDraws
           sampleSolved_all_locked).
Defined.

Lemma scatter_reaches_every_cell_witness :
  width rodA <= gridSize Medium /\ height rodA <= gridSize Medium /\
  exists rnd,
    unitDraws rnd /\
    scatterOne Medium rnd 0 rodA = withCurrent rodA 0 0.
Proof.
  assert (Hw : width rodA <= gridSize Medium) by (vm_compute; discriminate).
  assert (Hh : height rodA <= gridSize Medium) by (vm_compute; discriminate).
  split; [exact Hw | split; [exact Hh|]].
  apply (proj1 (scatter_reaches_every_cell Medium rodA 0 0 0 Hw Hh)).
  vm_compute. repeat split; discriminate.
Defined.

Lemma move_is_monotone_witness :
  nth_error (pieces sampleDraggingA) 2 = Some rodA /\
  (200 <= 320)%Q /\ (100 <= 100)%Q /\
  exists p1 p2,
    nth_error (pieces (handleMove Medium 632 (Some sampleRect) 200 100
                         sampleDraggingA)) 2 = Some p1 /\
    nth_error (pieces (handleMove Medium 632 (Some sampleRect) 320 100
                         sampleDraggingA)) 2 = Some p2 /\
    currentX p1 <= currentX p2 /\ currentY p1 <= currentY p2.
Proof.
  assert (Hx : (200 <= 320)%Q) by (vm_compute; discriminate).
  assert (Hy : (100 <= 100)%Q) by (vm_compute; discriminate).
  split; [reflexivity | split; [exact Hx | split; [exact Hy|]]].
  exact (move_is_monotone Medium 632 (Some sampleRect) sampleRect
           sampleDraggingA 2 rodA 200 100 320 100 eq_refl eq_refl Hx Hy).
Defined.

Lemma newly_locked_goes_behind_locked_witness :
  NoDup (map id (pieces sampleDragging)) /\
  pieces sampleDragging = [rodC] ++ [rodA] ++ rodB :: [] /\
  atHome rodB = true /\
  pieces (handleEnd sampleDragging) = [rodC] ++ withLocked rodB :: [rodA] ++ [].
Proof.
  split; [exact sampleIdle_ids | split; [reflexivity | split; [reflexivity|]]].
  exact (newly_locked_goes_behind_locked sampleDragging [rodC] [rodA] []
           rodB sampleIdle_ids eq_refl eq_refl eq_refl eq_refl eq_refl).
Defined.

Lemma drag_start_brings_to_front_witness :
  NoDup (map id (pieces sampleIdle)) /\
  pieces sampleIdle = [rodC] ++ rodA :: [rodB] /\
  isLocked rodA = false /\
  pieces (startDrag Medium 632 (Some sampleRect) 400 230 rodA sampleIdle)
    = [rodC] ++ [rodB] ++ [rodA].
Proof.
  split; [exact sampleIdle_ids | split; [reflexivity | split; [reflexivity|]]].
  exact (proj1 (drag_start_brings_to_front Medium 632 (Some sampleRect)
                  sampleRect sampleIdle [rodC] [rodB] rodA 400 230
                  eq_refl sampleIdle_ids eq_refl eq_refl)).
Defined.

Lemma idle_pointer_events_are_ignored_witness :
  draggingId sampleIdle = None /\
  forallb isWindowEvent [PointerMove 300 300; PointerUp; PointerMove 5 5]
    = true /\
  run Medium 632 (Some sampleRect) insertionSort sampleIdle
    [PointerMove 300 300; PointerUp; PointerMove 5 5] = sampleIdle.
Proof.
  split; [reflexivity | split; [reflexivity|]].
  exact (idle_pointer_events_are_ignored Medium 632 (Some sampleRect)
           insertionSort sampleIdle
           [PointerMove 300 300; PointerUp; PointerMove 5 5]
           (or_introl eq_refl) eq_refl).
Defined.

Lemma stale_drag_is_harmless_witness :
  draggingId sampleStale = Some "rod-9"%string /\
  (forall q, In q (pieces sampleStale) -> id q <> "rod-9"%string) /\
  handleMove Medium 632 (Some sampleRect) 300 300 sampleStale = sampleStale.
Proof.
  assert (H : forall q, In q (pieces sampleStale) -> id q <> "rod-9"%string).
  { intros q [<- | [<- | [<- | []]]]; discriminate. }
  split; [reflexivity | split; [exact H|]].
  exact (proj1 (stale_drag_is_harmless Medium 632 (Some sampleRect)
                  sampleStale "rod-9" 300 300 eq_refl H)).
Defined.

Lemma release_locks_at_most_one_witness :
  NoDup (map id (pieces sampleDragging)) /\
  In rodC (pieces (handleEnd sampleDragging)) /\
  (lockedCount (pieces (handleEnd sampleDragging))
   <= S (lockedCount (pieces sampleDragging)))%nat.
Proof.
  split; [exact sampleIdle_ids|].
  destruct (release_locks_at_most_one sampleDragging sampleIdle_ids)
    as (_ & Hkeep & _ & Hcount).
  split; [|exact Hcount].
  apply Hkeep; [left; reflexivity | reflexivity].
Defined.

Lemma only_a_release_solves_witness :
  isSolved sampleLastDrag = false /\
  isSolved (step Medium 632 (Some sampleRect) insertionSort
              sampleLastDrag PointerUp) = true /\
  (forall p,
      In p (pieces (step Medium 632 (Some sampleRect) insertionSort
                      sampleLastDrag PointerUp)) -> isLocked p = true).
Proof.
  split; [reflexivity | split; [reflexivity|]].
  exact (proj2 (only_a_release_solves Medium 632 (Some sampleRect)
                  insertionSort sampleLastDrag PointerUp eq_refl eq_refl)).
Defined.
